(** * Enrichment and cross-reference engine of fuse_data.py

    A shallow embedding of the data-fusion pipeline: name normalisation,
    fuzzy lookup, the record coercion utilities, the weapon enricher, the
    weapon cross-reference index, the boss vulnerability analyser and the
    weapon recommendation scorer, followed by the properties of the
    specification that are about them.

    Modelling conventions.
    - Text is [string] (a list of bytes).  Case mapping and whitespace are
      those of Python on ASCII text; bytes above 127 are left untouched.
    - A pandas cell is [cell]: NaN, a number, or a string.  [row.get(k)] on
      a missing column is [None], which [pd.isna] treats like NaN.
    - Python floats are exact rationals [Q]; infinity is a separate
      constructor of [xnum].  NaN as a parsed value is not represented.
    - Dictionaries whose iteration order is observable are association
      lists in insertion order; dictionaries that are only looked up are
      [gmap string _].
    - Library functions that the source calls but does not define
      (difflib's similarity ratio, ast.literal_eval, str() of a number) are
      parameters of the development, collected in [Section Pipeline]. *)

From Stdlib Require Import ZArith QArith Ascii String List Bool Lia.
From Stdlib Require Import Permutation Sorted.
From stdpp Require Import gmap strings.

Import ListNotations.
Local Open Scope Z_scope.

(** ** Python string primitives *)

Module PyStr.

Definition code (c : ascii) : nat := nat_of_ascii c.

(** [str.isspace] on one ASCII character: TAB..CR, FS..US and space. *)
Definition is_space (c : ascii) : bool :=
  let n := code c in
  ((9 <=? n)%nat && (n <=? 13)%nat) || ((28 <=? n)%nat && (n <=? 32)%nat).

Definition is_upper (c : ascii) : bool :=
  let n := code c in (65 <=? n)%nat && (n <=? 90)%nat.

Definition is_lower (c : ascii) : bool :=
  let n := code c in (97 <=? n)%nat && (n <=? 122)%nat.

Definition is_digit (c : ascii) : bool :=
  let n := code c in (48 <=? n)%nat && (n <=? 57)%nat.

Definition lower_char (c : ascii) : ascii :=
  if is_upper c then ascii_of_nat (code c + 32) else c.

Definition upper_char (c : ascii) : ascii :=
  if is_lower c then ascii_of_nat (code c - 32) else c.

Fixpoint map_chars (f : ascii -> ascii) (s : string) : string :=
  match s with
  | EmptyString => EmptyString
  | String c s' => String (f c) (map_chars f s')
  end.

(** [s.lower()] *)
Definition lower (s : string) : string := map_chars lower_char s.

(** [s.capitalize()]: first character upper-cased, the rest lower-cased. *)
Definition capitalize (s : string) : string :=
  match s with
  | EmptyString => EmptyString
  | String c s' => String (upper_char c) (lower s')
  end.

(** [s.lstrip()] *)
Fixpoint lstrip (s : string) : string :=
  match s with
  | EmptyString => EmptyString
  | String c s' => if is_space c then lstrip s' else s
  end.

(** [s.rstrip()] *)
Fixpoint rstrip (s : string) : string :=
  match s with
  | EmptyString => EmptyString
  | String c s' =>
      match rstrip s' with
      | EmptyString => if is_space c then EmptyString else String c EmptyString
      | r => String c r
      end
  end.

(** [s.strip()] *)
Definition strip (s : string) : string := rstrip (lstrip s).


(** [s.split(sep)] for a one-character separator: never empty, empty
    tokens are kept. *)
Fixpoint split (sep : ascii) (s : string) : list string :=
  match s with
  | EmptyString => [EmptyString]
  | String c s' =>
      if Ascii.eqb c sep then EmptyString :: split sep s'
      else match split sep s' with
           | [] => [String c EmptyString]
           | t :: ts => String c t :: ts
           end
  end.

(** [s.replace(x, "")] for a one-character [x]. *)
Fixpoint remove_char (x : ascii) (s : string) : string :=
  match s with
  | EmptyString => EmptyString
  | String c s' =>
      if Ascii.eqb c x then remove_char x s' else String c (remove_char x s')
  end.

(** [sub in s] *)
Fixpoint contains (sub s : string) : bool :=
  String.prefix sub s ||
  match s with
  | EmptyString => false
  | String _ s' => contains sub s'
  end.

(** [re.sub(r'\s+', ' ', s)]: every maximal run of whitespace becomes one
    space. *)
Fixpoint collapse_ws (s : string) : string :=
  match s with
  | EmptyString => EmptyString
  | String c s' =>
      if is_space c then
        match s' with
        | String c' _ =>
            if is_space c' then collapse_ws s'
            else String " " (collapse_ws s')
        | EmptyString => String " " EmptyString
        end
      else String c (collapse_ws s')
  end.

(** [sep.join(l)] *)
Fixpoint join (sep : string) (l : list string) : string :=
  match l with
  | [] => EmptyString
  | [x] => x
  | x :: l' => x +:+ sep +:+ join sep l'
  end.



End PyStr.

(** ** Cells, numbers and parsed literals *)

(** One cell of a data frame row as [pandas.read_csv] delivers it. *)
Inductive cell : Type :=
| CNaN
| CNum (q : Q)
| CStr (s : string).

(** A row ([r.to_dict()], [row.get]) and a table ([df.iterrows()]). *)
Abbreviation row := (gmap string cell).
Abbreviation table := (list (gmap string cell)).

(** A float that may be [float("inf")]. *)
Inductive xnum : Type :=
| Fin (q : Q)
| Inf.

(** What [ast.literal_eval] can return. *)
#[warnings="-register-all"]
Inductive literal : Type :=
| LNone
| LBool (b : bool)
| LNum (q : Q)
| LStr (s : string)
| LList (l : list literal)
| LTuple (l : list literal)
| LDict (d : list (literal * literal)).

(** [pd.isna(val)]; a missing key reads as Python [None]. *)
Definition isna (val : option cell) : bool :=
  match val with
  | None | Some CNaN => true
  | Some _ => false
  end.

Definition qltb (a b : Q) : bool := negb (Qle_bool b a).

Definition xnum_ltb (a b : xnum) : bool :=
  match a, b with
  | Fin x, Fin y => qltb x y
  | Fin _, Inf => true
  | Inf, _ => false
  end.

Module PyNum.
Import PyStr.

Definition digit_val (c : ascii) : Z := Z.of_nat (code c - 48).

(** Reads the leading decimal digits of [s]: their value, how many there
    were, and the rest of the text. *)
Fixpoint read_digits (s : string) (acc : Z) (n : nat) : Z * nat * string :=
  match s with
  | String c s' =>
      if is_digit c then read_digits s' (10 * acc + digit_val c) (S n)
      else (acc, n, s)
  | EmptyString => (acc, n, s)
  end.

Definition pow10 (n : nat) : positive := Z.to_pos (10 ^ Z.of_nat n).

(** An unsigned decimal literal: digits, optionally a point and more
    digits, at least one digit overall. *)
Definition parse_unsigned (s : string) : option Q :=
  let '(ip, ni, r) := read_digits s 0 0%nat in
  match r with
  | EmptyString => if (0 <? ni)%nat then Some (inject_Z ip) else None
  | String "." r' =>
      let '(fp, nf, r'') := read_digits r' 0 0%nat in
      match r'' with
      | EmptyString =>
          if (0 <? ni + nf)%nat
          then Some ((ip * Zpos (pow10 nf) + fp) # pow10 nf)
          else None
      | _ => None
      end
  | _ => None
  end.

(** [float(s)] on plain decimal text, the notation of the source tables:
    surrounding whitespace, an optional sign, digits with an optional
    fraction.  [None] is [ValueError].  Exponents, underscores and the
    words inf/nan are outside this model. *)
Definition py_float (s : string) : option Q :=
  match strip s with
  | String "-" r => option_map Qopp (parse_unsigned r)
  | String "+" r => parse_unsigned r
  | r => parse_unsigned r
  end.

Definition parse_unsigned_int (s : string) : option Z :=
  let '(ip, ni, r) := read_digits s 0 0%nat in
  match r with
  | EmptyString => if (0 <? ni)%nat then Some ip else None
  | _ => None
  end.

(** [int(s)] on plain decimal text; [None] is [ValueError]. *)
Definition int_of_string (s : string) : option Z :=
  match strip s with
  | String "-" r => option_map Z.opp (parse_unsigned_int r)
  | String "+" r => parse_unsigned_int r
  | r => parse_unsigned_int r
  end.

(** [int(x)] on a float: truncation towards zero. *)
Definition trunc (q : Q) : Z := Z.quot (Qnum q) (Zpos (Qden q)).

End PyNum.

(** [safe_float]: a number is returned as it is (Python guarantees
    [float(str(x)) == x]), text is parsed after its commas are removed. *)
Definition safe_float (val : option cell) (default : option Q) : option Q :=
  match val with
  | None | Some CNaN => default
  | Some (CNum q) => Some q
  | Some (CStr s) =>
      match PyNum.py_float (PyStr.remove_char "," s) with
      | Some q => Some q
      | None => default
      end
  end.

(** ** Enriched weapons and the weapon cross-reference index *)

(** The dictionary [enrich_weapons] appends for every row: its key set is
    fixed, so it is a record. *)
Record weapon : Type := {
  w_name : string;
  w_description : string;
  w_lore : string;
  w_category : string;
  w_damage_type : string;
  w_requirements : list (literal * literal);
  w_scaling : list (string * string);
  w_primary_scaling : string;
  w_base_damage : list (string * string);
  w_passive_effect : string;
  w_skill : string;
  w_fp_cost : string;
  w_weight : Q;
  w_dlc : Z
}.

(** [d.get(k)] on an insertion-ordered dictionary. *)
Fixpoint assoc_get {A : Type} (k : string) (d : list (string * A)) : option A :=
  match d with
  | [] => None
  | (k', v) :: d' => if String.eqb k' k then Some v else assoc_get k d'
  end.

(** [grade_order.get(g, 0)] *)
Definition grade_order (g : string) : Z :=
  if String.eqb g "S" then 6
  else if String.eqb g "A" then 5
  else if String.eqb g "B" then 4
  else if String.eqb g "C" then 3
  else if String.eqb g "D" then 2
  else if String.eqb g "E" then 1
  else 0.

(** [max(items, key=...)] on a non-empty list: the first element whose
    key is maximal. *)
Fixpoint max_by {A : Type} (key : A -> Z) (best : A) (l : list A) : A :=
  match l with
  | [] => best
  | x :: l' => max_by key (if key best <? key x then x else best) l'
  end.

(** The primary scaling stat of a resolved scaling table ([{}] when none
    was resolved). *)
Definition primary_scaling (scaling : list (string * string)) : string :=
  match scaling with
  | [] => "None"
  | x :: rest =>
      let best := max_by (fun kv => grade_order (snd kv)) x rest in
      if 0 <? grade_order (snd best) then fst best else "None"
  end.

(** A [defaultdict(list)]: keys in order of first insertion. *)
Definition buckets : Type := list (string * list weapon).

Fixpoint bucket_append (k : string) (w : weapon) (b : buckets) : buckets :=
  match b with
  | [] => [(k, [w])]
  | (k', l) :: b' =>
      if String.eqb k' k then (k', l ++ [w]) :: b'
      else (k', l) :: bucket_append k w b'
  end.

Definition bucket (k : string) (b : buckets) : list weapon :=
  match assoc_get k b with
  | Some l => l
  | None => []
  end.

Record weapon_index : Type := {
  by_damage_type : buckets;
  by_status : buckets;
  by_category : buckets;
  by_scaling : buckets
}.

Definition physical_types : list string := ["Standard"; "Slash"; "Strike"; "Pierce"].

Definition str_in (x : string) (l : list string) : bool :=
  existsb (String.eqb x) l.

(** The cleaned damage-type tokens of a weapon, as the index sees them. *)
Definition index_dmg_tokens (damage_type : string) : list string :=
  map (fun dt => PyStr.capitalize (PyStr.strip dt))
      (map PyStr.strip (PyStr.split "/" damage_type)).

Definition index_status_keywords : list (string * string) :=
  [ ("Blood Loss", "Hemorrhage"); ("Bleed", "Hemorrhage");
    ("Frost", "Frostbite"); ("Frostbite", "Frostbite");
    ("Poison", "Poison"); ("Scarlet Rot", "Scarlet Rot");
    ("Rot", "Scarlet Rot"); ("Madness", "Madness"); ("Sleep", "Sleep");
    ("Death", "Death Blight") ].

(** The loop over the keyword table that stops at the first hit. *)
Fixpoint first_keyword (table : list (string * string)) (passive : string)
  : option string :=
  match table with
  | [] => None
  | (keyword, status_name) :: table' =>
      if PyStr.contains (PyStr.lower keyword) (PyStr.lower passive)
      then Some status_name
      else first_keyword table' passive
  end.

Definition index_status (passive : string) : option string :=
  match passive with
  | EmptyString => None
  | _ =>
      if String.eqb passive "None" || String.eqb passive "No passive effects"
      then None
      else first_keyword index_status_keywords passive
  end.

(** The loop [for dt in dmg_types]: a recognised token puts the weapon in
    its bucket, any other token is skipped. *)
Definition add_tokens (w : weapon) (toks : list string) (b : buckets) : buckets :=
  fold_left (fun b dt => if str_in dt physical_types then bucket_append dt w b else b)
            toks b.

(** One iteration of the loop of [build_weapon_index]. *)
Definition index_weapon (idx : weapon_index) (w : weapon) : weapon_index :=
  {| by_damage_type :=
       add_tokens w (index_dmg_tokens (w_damage_type w)) (by_damage_type idx);
     by_status :=
       match index_status (w_passive_effect w) with
       | Some st => bucket_append st w (by_status idx)
       | None => by_status idx
       end;
     by_category := bucket_append (w_category w) w (by_category idx);
     by_scaling := bucket_append (w_primary_scaling w) w (by_scaling idx) |}.

Definition empty_index : weapon_index :=
  {| by_damage_type := []; by_status := []; by_category := []; by_scaling := [] |}.

Definition build_weapon_index (weapons : list weapon) : weapon_index :=
  fold_left index_weapon weapons empty_index.

(** ** Status ranking *)

(** A stable sort: [lt y x] says that [y] must come before [x]; elements
    that [lt] does not order keep their relative position.  This is what
    [list.sort(key=...)] guarantees. *)
Section StableSort.
Context {A : Type} (lt : A -> A -> bool).

Fixpoint insert_sorted (x : A) (l : list A) : list A :=
  match l with
  | [] => [x]
  | y :: l' => if lt y x then y :: insert_sorted x l' else x :: l
  end.

Fixpoint stable_sort (l : list A) : list A :=
  match l with
  | [] => []
  | x :: l' => insert_sorted x (stable_sort l')
  end.
End StableSort.

Definition IMMUNE : string := "immune".

(** [parse_first_resistance] on the text kept in [status_details]. *)
Definition parse_first_resistance (res_str : string) : xnum :=
  if String.eqb (PyStr.lower (PyStr.strip res_str)) IMMUNE then Inf
  else
    match PyStr.split "/" res_str with
    | first :: _ =>
        match PyNum.py_float (PyStr.remove_char "," (PyStr.strip first)) with
        | Some q => Fin q
        | None => Inf
        end
    | [] => Inf
    end.

Definition text_get (k : string) (d : list (string * string)) : string :=
  match assoc_get k d with
  | Some v => v
  | None => EmptyString
  end.

Definition rank_status_vulnerabilities
    (status_vulns : list string) (status_details : list (string * string))
  : list (string * xnum) :=
  stable_sort (fun a b => xnum_ltb (snd a) (snd b))
    (map (fun status => (status, parse_first_resistance (text_get status status_details)))
         status_vulns).

(** ** Recommendation engine *)

Definition tier_scores : list Z := [10; 7; 4; 2].

(** The loop [for i, (status_name, base_res) in enumerate(ranked_statuses)]. *)
Fixpoint assign_weights (i : nat) (ranked : list (string * xnum))
    (acc : gmap string Z) : gmap string Z :=
  match ranked with
  | [] => acc
  | (status_name, _) :: ranked' =>
      assign_weights (S i) ranked' (<[status_name := nth i tier_scores 1]> acc)
  end.

Definition qsum (l : list Q) : Q := fold_left Qplus l 0%Q.

(** The physical bonus: 3 or 1. *)
Definition phys_bonus (weakest_physical : string)
    (physical_negation : list (string * Q)) : Z :=
  match physical_negation with
  | [] => 1
  | _ =>
      if String.eqb weakest_physical "Unknown" then 1
      else
        let vals := map snd physical_negation in
        match assoc_get weakest_physical physical_negation with
        | None => 1
        | Some weakest_val =>
            let others := List.filter (fun v => negb (Qeq_bool v weakest_val)) vals in
            let avg_others :=
              (qsum others / inject_Z (Z.max (Z.of_nat (length vals) - 1) 1))%Q in
            if qltb weakest_val avg_others then 3 else 1
        end
  end.

Definition status_keywords : list (string * list string) :=
  [ ("Hemorrhage", ["blood loss"; "hemorrhage"; "bleed"]);
    ("Frostbite", ["frostbite"; "frost"]);
    ("Poison", ["poison"]);
    ("Scarlet Rot", ["scarlet rot"; "rot"]);
    ("Madness", ["madness"]);
    ("Sleep", ["sleep"]);
    ("Death Blight", ["death"; "blight"]) ].

Fixpoint first_status (table : list (string * list string)) (passive : string)
  : option string :=
  match table with
  | [] => None
  | (status_name, keywords) :: table' =>
      if existsb (fun kw => PyStr.contains kw passive) keywords
      then Some status_name
      else first_status table' passive
  end.

Definition get_weapon_status (w : weapon) : option string :=
  let passive := PyStr.lower (w_passive_effect w) in
  if str_in passive ["none"; "no passive effects"; EmptyString] then None
  else first_status status_keywords passive.

(** The deduplication loop: the first weapon of every name is kept. *)
Fixpoint dedup_by_name (seen : gset string) (l : list weapon) : list weapon :=
  match l with
  | [] => []
  | w :: l' =>
      if decide (w_name w ∈ seen) then dedup_by_name seen l'
      else w :: dedup_by_name ({[ w_name w ]} ∪ seen) l'
  end.

Record scored_weapon : Type := {
  sw : weapon;
  score : Z;
  reason : string
}.

Definition weapon_dmg_types (w : weapon) : list string :=
  map (fun d => PyStr.capitalize (PyStr.strip d)) (PyStr.split "/" (w_damage_type w)).

(** The body of the scoring loop: the score and the reasons of one weapon. *)
Definition score_weapon (weakest_physical : string) (bonus : Z)
    (status_weights : gmap string Z) (status_vulns : list string)
    (status_details : list (string * string)) (w : weapon) : Z * list string :=
  let '(score1, reasons1) :=
    if str_in weakest_physical (weapon_dmg_types w) then
      (bonus,
       if 1 <? bonus then ["Exploits " +:+ weakest_physical +:+ " weakness"] else [])
    else (0, []) in
  let w_status := get_weapon_status w in
  let '(score2, reasons2) :=
    match w_status with
    | Some st =>
        match status_weights !! st with
        | Some wt =>
            (score1 + wt,
             reasons1 ++ ["Applies " +:+ st +:+ " (boss resistance: "
                            +:+ text_get st status_details +:+ ")"])
        | None => (score1, reasons1)
        end
    | None => (score1, reasons1)
    end in
  let score3 :=
    match w_status, reasons2 with
    | Some st, [] => if str_in st status_vulns then score2 + 1 else score2
    | _, _ => score2
    end in
  (score3, reasons2).

Definition mk_scored (scr : Z * list string) (w : weapon) : scored_weapon :=
  {| sw := w;
     score := fst scr;
     reason :=
       match snd scr with
       | [] => "Deals " +:+ w_damage_type w +:+ " damage"
       | reasons => PyStr.join "; " reasons
       end |}.

Definition candidates (idx : weapon_index) : list weapon :=
  dedup_by_name ∅ (concat (map snd (by_damage_type idx))
                     ++ concat (map snd (by_status idx))).

(** The list [scored] after [scored.sort(key=score, reverse=True)]. *)
Definition scored_candidates (weakest_physical : string)
    (status_vulns : list string) (idx : weapon_index)
    (status_details : list (string * string))
    (physical_negation : list (string * Q)) : list scored_weapon :=
  let ranked := rank_status_vulnerabilities status_vulns status_details in
  let status_weights := assign_weights 0 ranked ∅ in
  let bonus := phys_bonus weakest_physical physical_negation in
  let scored :=
    omap (fun w =>
            let scr := score_weapon weakest_physical bonus status_weights
                         status_vulns status_details w in
            if 0 <? fst scr then Some (mk_scored scr w) else None)
         (candidates idx) in
  stable_sort (fun a b => score b <? score a) scored.

Record rec_entry : Type := {
  r_name : string;
  r_category : string;
  r_damage_type : string;
  r_passive_effect : string;
  r_reason : string
}.

Definition mk_entry (s : scored_weapon) : rec_entry :=
  {| r_name := w_name (sw s);
     r_category := w_category (sw s);
     r_damage_type := w_damage_type (sw s);
     r_passive_effect := w_passive_effect (sw s);
     r_reason := reason s |}.

Definition scaling_to_build : list (string * string) :=
  [ ("Str", "strength"); ("Dex", "dexterity"); ("Int", "intelligence");
    ("Fai", "faith"); ("Arc", "arcane") ].

Definition builds : list string := map snd scaling_to_build.

(** The dictionary [recs]: five keys, each holding a list. *)
Definition recs_t : Type := list (string * list rec_entry).

Definition recs_init : recs_t := map (fun b => (b, [])) builds.

Definition recs_get (build : string) (recs : recs_t) : list rec_entry :=
  match assoc_get build recs with
  | Some l => l
  | None => []
  end.

(** [recs[build].append(e)] *)
Fixpoint recs_append (build : string) (e : rec_entry) (recs : recs_t) : recs_t :=
  match recs with
  | [] => []
  | (k, l) :: recs' =>
      if String.eqb k build then (k, l ++ [e]) :: recs'
      else (k, l) :: recs_append build e recs'
  end.

(** One iteration of the first distribution loop. *)
Definition distribute_step (recs : recs_t) (s : scored_weapon) : recs_t :=
  match assoc_get (w_primary_scaling (sw s)) scaling_to_build with
  | Some build =>
      if (length (recs_get build recs) <? 2)%nat
      then recs_append build (mk_entry s) recs
      else recs
  | None => recs
  end.

(** One iteration of the inner fallback loop, for the stat [stat]. *)
Definition fallback_step (stat build : string) (recs : recs_t)
    (s : scored_weapon) : recs_t :=
  let grade :=
    match assoc_get stat (w_scaling (sw s)) with
    | Some g => g
    | None => "-"
    end in
  if (2 <=? grade_order grade) && (length (recs_get build recs) <? 2)%nat
  then recs_append build (mk_entry s) recs
  else recs.

(** One iteration of the outer fallback loop. *)
Definition fallback_build (scored : list scored_weapon) (recs : recs_t)
    (sb : string * string) : recs_t :=
  let '(stat, build) := sb in
  match recs_get build recs, scored with
  | [], _ :: _ => fold_left (fallback_step stat build) (firstn 10 scored) recs
  | _, _ => recs
  end.

Definition distribute (scored : list scored_weapon) : recs_t :=
  let recs := fold_left distribute_step scored recs_init in
  let recs := fold_left (fallback_build scored) scaling_to_build recs in
  List.filter (fun kv => match snd kv with [] => false | _ => true end) recs.

Definition recommend_weapons (weakest_physical : string)
    (status_vulns : list string) (idx : weapon_index)
    (status_details : list (string * string))
    (physical_negation : list (string * Q)) : recs_t :=
  distribute (scored_candidates weakest_physical status_vulns idx
                status_details physical_negation).

(** ** Boss vulnerability analysis: the parts that only read numbers *)

(** [phys_neg]: the four negation columns through [safe_float]. *)
Definition phys_neg (stats : gmap string cell) : list (string * option Q) :=
  [ ("Standard", safe_float (stats !! "neg_standard") None);
    ("Slash", safe_float (stats !! "neg_slash") None);
    ("Strike", safe_float (stats !! "neg_strike") None);
    ("Pierce", safe_float (stats !! "neg_pierce") None) ].

(** [{k: v for k, v in phys_neg.items() if v is not None}] *)
Definition valid_phys (stats : gmap string cell) : list (string * Q) :=
  omap (fun kv => match snd kv with
                  | Some v => Some (fst kv, v)
                  | None => None
                  end) (phys_neg stats).

(** [min(d, key=d.get)] on a non-empty dictionary: the first key whose
    value is minimal. *)
Fixpoint min_by (best : string * Q) (l : list (string * Q)) : string * Q :=
  match l with
  | [] => best
  | x :: l' => min_by (if qltb (snd x) (snd best) then x else best) l'
  end.

Definition weakest_physical (stats : gmap string cell) : string :=
  match valid_phys stats with
  | [] => "Unknown"
  | x :: rest => fst (min_by x rest)
  end.

(** ** Errors *)

Inductive exn : Type := ValueError.

Inductive result (A : Type) : Type :=
| Ok (a : A)
| Raise (e : exn).

Arguments Ok {A} a.
Arguments Raise {A} e.

Definition bind {A B : Type} (r : result A) (k : A -> result B) : result B :=
  match r with
  | Ok a => k a
  | Raise e => Raise e
  end.

Notation "x <- e ;; k" := (bind e (fun x => k))
  (at level 100, e at next level, right associativity).

(** [for x in l: ...] where the body may raise. *)
Fixpoint map_result {A B : Type} (f : A -> result B) (l : list A) : result (list B) :=
  match l with
  | [] => Ok []
  | x :: l' => y <- f x ;; ys <- map_result f l' ;; Ok (y :: ys)
  end.

(** [int(row.get(k, default))] *)
Definition py_int (val : option cell) (default : Z) : result Z :=
  match val with
  | None => Ok default
  | Some CNaN => Raise ValueError
  | Some (CNum q) => Ok (PyNum.trunc q)
  | Some (CStr s) =>
      match PyNum.int_of_string s with
      | Some z => Ok z
      | None => Raise ValueError
      end
  end.

(** ** The enriched boss document *)



(** The tables [load_all_data] hands to the enrichers ([None]: the source
    file was absent). *)
Record dataset : Type := {
  weapons : option (list (gmap string cell));
  weapons_stats : option (list (gmap string cell));
  bosses : option (list (gmap string cell));
  boss_stats : option (list (gmap string cell))
}.

Definition FUZZY_CUTOFF : Q := 75 # 100.


Definition status_map : list (string * string) :=
  [ ("Hemorrhage", "res_hemorrhage"); ("Frostbite", "res_frostbite");
    ("Poison", "res_poison"); ("Scarlet Rot", "res_scarlet_rot") ].






(** ** The pipeline over its host library *)

Section Pipeline.

(** [difflib.SequenceMatcher(None, a, b).ratio()] *)
Variable ratio : string -> string -> Q.

(** [ast.literal_eval]; [None] when it raises ValueError or SyntaxError. *)
Variable literal_eval : string -> option literal.

(** [str(x)] of a value that is not already a string. *)
Variable repr : literal -> string.

Definition py_str (c : cell) : string :=
  match c with
  | CStr s => s
  | CNum q => repr (LNum q)
  | CNaN => "nan"
  end.


Definition safe_str (val : option cell) (default : string) : string :=
  match val with
  | None | Some CNaN => default
  | Some c => PyStr.strip (py_str c)
  end.

Definition safe_literal_eval (val : option cell) : option literal :=
  match val with
  | None | Some CNaN => None
  | Some c =>
      match literal_eval (py_str c) with
      | Some l => Some l
      | None => Some (LStr (py_str c))
      end
  end.

Definition norm (name : option cell) : string :=
  match name with
  | None | Some CNaN => EmptyString
  | Some c => PyStr.collapse_ws (PyStr.strip (PyStr.lower (py_str c)))
  end.

(** Tuple order on [(score, key)]. *)
Definition pair_ltb (a b : Q * string) : bool :=
  qltb (fst a) (fst b) || (Qeq_bool (fst a) (fst b) && String.ltb (snd a) (snd b)).

(** [max(result)]: the first maximal pair. *)
Fixpoint best_of (best : Q * string) (l : list (Q * string)) : Q * string :=
  match l with
  | [] => best
  | x :: l' => best_of (if pair_ltb best x then x else best) l'
  end.

(** [difflib.get_close_matches(word, possibilities, n=1, cutoff)].  The
    first component lists the candidates whose similarity to [word] was
    computed.  difflib tests two cheaper upper bounds of the ratio
    before the ratio itself; they never change the outcome. *)
Definition get_close_matches (word : string) (possibilities : list string)
    (cutoff : Q) : list string * result (list string) :=
  if Qle_bool 0 cutoff && Qle_bool cutoff 1 then
    let result :=
      List.filter (fun rx => Qle_bool cutoff (fst rx))
                  (map (fun x => (ratio x word, x)) possibilities) in
    (possibilities,
     Ok (match result with
         | [] => []
         | r :: rs => [snd (best_of r rs)]
         end))
  else ([], Raise ValueError).

Definition keys {V : Type} (d : gmap string V) : list string :=
  map fst (map_to_list d).

(** [fuzzy_get]: the candidates that were scored, and the outcome. *)
Definition fuzzy_get {V : Type} (lookup_dict : gmap string V)
    (key : option cell) (cutoff : Q) : list string * result (option V) :=
  let k := norm key in
  match lookup_dict !! k with
  | Some v => ([], Ok (Some v))
  | None =>
      let '(scored, r) := get_close_matches k (keys lookup_dict) cutoff in
      (scored,
       matches <- r ;;
       Ok (match matches with
           | m :: _ => lookup_dict !! m
           | [] => None
           end))
  end.

(** [fuzzy_get(d, name)] as the enrichers call it, with the default
    cutoff. *)
Definition fuzzy_find {V : Type} (lookup_dict : gmap string V)
    (name : string) : option V :=
  match snd (fuzzy_get lookup_dict (Some (CStr name)) FUZZY_CUTOFF) with
  | Ok r => r
  | Raise _ => None
  end.

(** *** Weapons *)

Definition scaling_of_row (r : gmap string cell) : list (string * string) :=
  [ ("Str", safe_str (r !! "Str") "-"); ("Dex", safe_str (r !! "Dex") "-");
    ("Int", safe_str (r !! "Int") "-"); ("Fai", safe_str (r !! "Fai") "-");
    ("Arc", safe_str (r !! "Arc") "-") ].

Definition dmg_of_row (r : gmap string cell) : list (string * string) :=
  [ ("Phy", safe_str (r !! "Phy") "0"); ("Mag", safe_str (r !! "Mag") "0");
    ("Fir", safe_str (r !! "Fir") "0"); ("Lit", safe_str (r !! "Lit") "0");
    ("Hol", safe_str (r !! "Hol") "0") ].

(** A lookup keyed by the normalised name column; a later row with the
    same key replaces the earlier one. *)
Definition build_lookup {V : Type} (name_col : string)
    (f : gmap string cell -> V) (t : option (list (gmap string cell)))
  : gmap string V :=
  match t with
  | None => ∅
  | Some rows => fold_left (fun acc r => <[norm (r !! name_col) := f r]> acc) rows ∅
  end.

(** The body of the row loop of [enrich_weapons]. *)
Definition enrich_weapon (lore_lib : gmap string string)
    (scaling_lookup dmg_lookup : gmap string (list (string * string)))
    (r : gmap string cell) : result weapon :=
  let name := safe_str (r !! "name") "Unknown Weapon" in
  let reqs :=
    match safe_literal_eval (r !! "requirements") with
    | Some (LDict d) => d
    | _ => []
    end in
  let lore := default EmptyString (fuzzy_find lore_lib name) in
  let scaling := default [] (fuzzy_find scaling_lookup name) in
  let base_dmg := default [] (fuzzy_find dmg_lookup name) in
  dlc <- py_int (r !! "dlc") 0 ;;
  Ok {| w_name := name;
        w_description := safe_str (r !! "description") EmptyString;
        w_lore := lore;
        w_category := safe_str (r !! "category") "Unknown";
        w_damage_type := safe_str (r !! "damage type") "Standard";
        w_requirements := reqs;
        w_scaling := scaling;
        w_primary_scaling := primary_scaling scaling;
        w_base_damage := base_dmg;
        w_passive_effect := safe_str (r !! "passive effect") "None";
        w_skill := safe_str (r !! "skill") "None";
        w_fp_cost := safe_str (r !! "FP cost") "0";
        w_weight := default 0%Q (safe_float (r !! "weight") (Some 0%Q));
        w_dlc := dlc |}.

Definition enrich_weapons (data : dataset) (lore_lib : gmap string string)
  : result (list weapon) :=
  match weapons data with
  | None => Ok []
  | Some df =>
      let scaling_lookup := build_lookup "Name" scaling_of_row (weapons_stats data) in
      let dmg_lookup := build_lookup "Name" dmg_of_row (weapons_stats data) in
      map_result (enrich_weapon lore_lib scaling_lookup dmg_lookup) df
  end.

(** *** Bosses *)

(** One iteration of the loop over [status_map]. *)
Definition status_entry (stats : gmap string cell) (sc : string * string)
  : option (string * string) :=
  match stats !! snd sc with
  | None | Some CNaN => None
  | Some c =>
      let text := PyStr.strip (py_str c) in
      if String.eqb (PyStr.lower text) IMMUNE then None
      else Some (fst sc, text)
  end.

(** [status_details] in insertion order; [status_vulns] is its list of
    keys. *)
Definition status_details (stats : gmap string cell) : list (string * string) :=
  omap (status_entry stats) status_map.

Definition status_vulns (stats : gmap string cell) : list string :=
  map fst (status_details stats).







End Pipeline.

(** ** Definitions the properties are stated with *)

(** [a] is not above [b]: what an ascending sort guarantees of neighbours. *)
Definition xnum_le (a b : xnum) : Prop := xnum_ltb b a = false.

(** Two resistances that the ranking does not order. *)
Definition xnum_tied (a b : xnum) : bool :=
  negb (xnum_ltb a b) && negb (xnum_ltb b a).


(** What the distribution loops keep true of [recs]: the five archetypes
    are its keys and no list is longer than two. *)
Definition recs_ok (recs : recs_t) : Prop :=
  map fst recs = builds /\ Forall (fun kv => (length (snd kv) <= 2)%nat) recs.

(** The rule in the words of the specification: the average is taken over
    the negation values of the physical types other than the weakest one. *)
Definition phys_bonus_by_type (weakest_physical : string)
    (physical_negation : list (string * Q)) : Z :=
  match assoc_get weakest_physical physical_negation with
  | None => 1
  | Some weakest_val =>
      let others :=
        map snd (List.filter (fun kv => negb (String.eqb (fst kv) weakest_physical))
                             physical_negation) in
      match others with
      | [] => 1
      | _ =>
          if qltb weakest_val (qsum others / inject_Z (Z.of_nat (length others)))%Q
          then 3 else 1
      end
  end.

(** Two types tied at the lowest negation. *)
Definition tied_negation : list (string * Q) :=
  [ ("Standard", 40%Q); ("Slash", 40%Q); ("Strike", 60%Q); ("Pierce", 60%Q) ].

(** Four equal negations below zero. *)
Definition equal_negative_negation : list (string * Q) :=
  [ ("Standard", (-10)%Q); ("Slash", (-10)%Q); ("Strike", (-10)%Q);
    ("Pierce", (-10)%Q) ].

(** A weapon with the given name, damage type, passive effect and scaling;
    the other fields take the defaults of [enrich_weapons]. *)
Definition sample_weapon (name damage_type passive : string)
    (scaling : list (string * string)) : weapon :=
  {| w_name := name;
     w_description := EmptyString;
     w_lore := EmptyString;
     w_category := "Unknown";
     w_damage_type := damage_type;
     w_requirements := [];
     w_scaling := scaling;
     w_primary_scaling := primary_scaling scaling;
     w_base_damage := [];
     w_passive_effect := passive;
     w_skill := "None";
     w_fp_cost := "0";
     w_weight := 0%Q;
     w_dlc := 0 |}.

(** All weapons of an index dictionary, bucket after bucket. *)
Definition members (b : buckets) : list weapon := concat (map snd b).

(** The order of the scored list: higher scores first. *)
Definition score_ge (a b : scored_weapon) : Prop := score b <= score a.

(** The weapon list starts with [x], so the first damage-type bucket does. *)
Definition led_by (x : weapon) (b : buckets) : Prop :=
  exists k l b', b = (k, x :: l) :: b'.

(** The boss of the end-to-end example: its status weights, resistance
    texts, the reason recorded for the matching weapon, and the scoring
    loop body specialised to it. *)
Definition rot_weights : gmap string Z := <["Scarlet Rot" := 10]> ∅.
Definition rot_details : list (string * string) := [("Scarlet Rot", "60/80")].
Definition rot_reason : string :=
  "Exploits Standard weakness; Applies Scarlet Rot (boss resistance: 60/80)".

Definition rot_scorer (w : weapon) : option scored_weapon :=
  let scr := score_weapon "Standard" 3 rot_weights ["Scarlet Rot"] rot_details w in
  if 0 <? fst scr then Some (mk_scored scr w) else None.

(** The comparison of [scored.sort(key=score, reverse=True)]. *)
Definition desc (a b : scored_weapon) : bool := score b <? score a.

(** A host for closed examples.  Their cells are text, or numbers that are
    only read as numbers, and their lookups are exact or have no candidate:
    the outcome does not depend on what is chosen here. *)
Definition sample_repr : literal -> string := fun _ => EmptyString.
Definition sample_literal_eval : string -> option literal := fun _ => None.
Definition sample_ratio : string -> string -> Q :=
  fun a b => if String.eqb a b then 1%Q else 0%Q.



(** A weapon row with a blank dlc cell, and a data set holding only it. *)
Definition blank_dlc_row : gmap string cell :=
  <["name" := CStr "Club"]> (<["dlc" := CNaN]> ∅).

Definition blank_dlc_data : dataset :=
  {| weapons := Some [blank_dlc_row];
     weapons_stats := None;
     bosses := None;
     boss_stats := None |}.







(** The stat record and weapons of the end-to-end example. *)
Definition rot_stats : gmap string cell :=
  <["neg_standard" := CNum 40]>
    (<["neg_slash" := CNum 60]>
       (<["neg_strike" := CNum 60]>
          (<["neg_pierce" := CNum 60]>
             (<["res_scarlet_rot" := CStr "60/80"]> ∅)))).

Definition rotten_club : weapon :=
  sample_weapon "Rotten Club" "Standard" "Builds scarlet rot" [].

Definition antspur_rapier : weapon :=
  sample_weapon "Antspur Rapier" "Standard/Pierce" "Causes scarlet rot buildup (50)" [].


(** A lookup with one normalised key. *)
Definition club_lookup : gmap string Z := <["club" := 1]> ∅.

(** ** The location cross-reference index *)

(** An enriched location, as [enrich_locations] emits it: every key is
    present and the four listings are lists of texts. *)
Record location : Type := {
  l_name : string;
  l_description : string;
  l_region : string;
  l_items : list string;
  l_npcs : list string;
  l_creatures : list string;
  l_bosses : list string;
  l_dlc : Z
}.

(** A [defaultdict(list)] of location names: keys in order of first
    insertion. *)
Definition name_lists : Type := list (string * list string).

Fixpoint names_append (k x : string) (d : name_lists) : name_lists :=
  match d with
  | [] => [(k, [x])]
  | (k', l) :: d' =>
      if String.eqb k' k then (k', l ++ [x]) :: d'
      else (k', l) :: names_append k x d'
  end.

(** [d.get(k, [])] *)
Definition names_of (k : string) (d : name_lists) : list string :=
  match assoc_get k d with
  | Some l => l
  | None => []
  end.

Record location_index : Type := {
  boss_to_locations : name_lists;
  npc_to_locations : name_lists;
  creature_to_locations : name_lists
}.

(** One of the three inner loops: every listed entity sends its normalised
    name to the name of the location. *)
Definition add_listing (repr : literal -> string) (loc_name : string)
    (listing : list string) (d : name_lists) : name_lists :=
  fold_left (fun acc e => names_append (norm repr (Some (CStr e))) loc_name acc)
    listing d.

Definition index_location (repr : literal -> string) (idx : location_index)
    (loc : location) : location_index :=
  {| boss_to_locations :=
       add_listing repr (l_name loc) (l_bosses loc) (boss_to_locations idx);
     npc_to_locations :=
       add_listing repr (l_name loc) (l_npcs loc) (npc_to_locations idx);
     creature_to_locations :=
       add_listing repr (l_name loc) (l_creatures loc) (creature_to_locations idx) |}.

Definition build_location_index (repr : literal -> string)
    (locations : list location) : location_index :=
  fold_left (index_location repr) locations
    {| boss_to_locations := []; npc_to_locations := []; creature_to_locations := [] |}.

(** The names of the locations that list, under [field], an entity whose
    normalised name is [k]: one name per listed occurrence, in the order of
    the locations. *)
Definition listed_under (repr : literal -> string) (field : location -> list string)
    (k : string) (locations : list location) : list string :=
  flat_map (fun loc =>
              map (fun _ => l_name loc)
                (List.filter (fun e => String.eqb (norm repr (Some (CStr e))) k)
                   (field loc)))
    locations.

(** ** Definitions for the further properties *)

(** Text that does not start with whitespace. *)
Definition no_lead (s : string) : Prop :=
  match s with
  | EmptyString => True
  | String c _ => PyStr.is_space c = false
  end.

(** A weapon matches a boss: one of its damage types is the boss's weakest
    type, or the status it applies is one the boss is vulnerable to. *)
Definition weapon_matches (weakest : string) (vulns : list string) (w : weapon) : Prop :=
  str_in weakest (weapon_dmg_types w) = true \/
  exists st, get_weapon_status w = Some st /\ In st vulns.

(** The entry of the scored list that the scoring loop makes of a
    candidate: none when its score is 0. *)
Definition score_entry (weakest : string) (vulns : list string)
    (details : list (string * string)) (negation : list (string * Q))
    (w : weapon) : option scored_weapon :=
  let scr := score_weapon weakest (phys_bonus weakest negation)
               (assign_weights 0 (rank_status_vulnerabilities vulns details) ∅)
               vulns details w in
  if 0 <? fst scr then Some (mk_scored scr w) else None.

(** What entitles the scored weapon [s] to a place in the list of [build]:
    its primary scaling is the stat of the archetype, or it is one of the
    ten best and scales with that stat at grade D or better. *)
Definition qualifies (scored : list scored_weapon) (build : string)
    (s : scored_weapon) : Prop :=
  exists stat,
    In (stat, build) scaling_to_build /\
    In s scored /\
    (w_primary_scaling (sw s) = stat \/
     (In s (firstn 10 scored) /\
      2 <= grade_order (match assoc_get stat (w_scaling (sw s)) with
                        | Some g => g
                        | None => "-"
                        end))).

(** Every entry of [recs] was made from a scored weapon that qualifies. *)
Definition recs_qualified (scored : list scored_weapon) (recs : recs_t) : Prop :=
  forall build entries e,
    In (build, entries) recs -> In e entries ->
    exists s, e = mk_entry s /\ qualifies scored build s.

(** A simple similarity for closed examples of approximate matches: twice
    the length of the common prefix over the combined length. *)
Fixpoint common_prefix (a b : string) : nat :=
  match a, b with
  | String x a', String y b' => if Ascii.eqb x y then S (common_prefix a' b') else O
  | _, _ => O
  end.

Definition prefix_ratio (a b : string) : Q :=
  Z.of_nat (2 * common_prefix a b) # Pos.of_nat (String.length a + String.length b).

(** A stat row for the weapon "Club", a lookup with the key "godrick", and
    a weapon that scales with strength (B) and dexterity (D). *)
Definition club_stats_row : gmap string cell :=
  <["Name" := CStr " Club "]> (<["Str" := CStr "C"]> ∅).

Definition godrick_lookup : gmap string Z := <["godrick" := 1]> ∅.

Definition rot_greatsword : weapon :=
  sample_weapon "Rot Greatsword" "Standard" "Builds scarlet rot"
    [ ("Str", "B"); ("Dex", "D"); ("Int", "-"); ("Fai", "-"); ("Arc", "-") ].


(** Every list of [recs] is made, in order, of some of the weapons of
    [src]. *)
Definition recs_ordered (src : list scored_weapon) (recs : recs_t) : Prop :=
  forall build entries,
    In (build, entries) recs ->
    exists ss, sublist ss src /\ entries = map mk_entry ss.

(** A weapon table with the one row "Club" and the stat table with its
    row. *)
Definition club_row : gmap string cell := <["name" := CStr "Club"]> ∅.

Definition club_data : dataset :=
  {| weapons := Some [club_row]; weapons_stats := Some [club_stats_row];
     bosses := None; boss_stats := None |}.

(** A weapon whose passive effect names its status by the word
    "hemorrhage" only. *)
Definition hemorrhage_blade : weapon :=
  sample_weapon "Blade" "Slash" "Causes hemorrhage" [].

(** * Properties *)

(** ** The primitives on sample text *)

Example lower_ex : PyStr.lower "Builds Scarlet Rot" = "builds scarlet rot".
Proof. reflexivity. Qed.

Example capitalize_ex : PyStr.capitalize "pIERCE" = "Pierce".
Proof. reflexivity. Qed.

Example strip_ex : PyStr.strip "  290 / 332 " = "290 / 332".
Proof. reflexivity. Qed.

Example split_ex : PyStr.split "/" "Standard/Pierce" = ["Standard"; "Pierce"].
Proof. reflexivity. Qed.

Example split_empty_ex : PyStr.split "/" EmptyString = [EmptyString].
Proof. reflexivity. Qed.

Example contains_ex : PyStr.contains "rot" "builds scarlet rot" = true.
Proof. reflexivity. Qed.

Example collapse_ex : PyStr.collapse_ws "a  b   c" = "a b c".
Proof. reflexivity. Qed.

Example py_float_ex1 : PyNum.py_float "40" = Some (40 # 1).
Proof. reflexivity. Qed.

Example py_float_ex2 : PyNum.py_float " 12.5 " = Some (125 # 10).
Proof. reflexivity. Qed.

Example py_float_ex3 : PyNum.py_float "Immune" = None.
Proof. reflexivity. Qed.

Example py_float_ex4 : PyNum.py_float "-7" = Some (-7 # 1).
Proof. reflexivity. Qed.

Example py_float_ex5 : PyNum.py_float EmptyString = None.
Proof. reflexivity. Qed.

Example safe_float_commas : safe_float (Some (CStr "120,000")) None = Some (120000 # 1).
Proof. reflexivity. Qed.

Example safe_float_bad : safe_float (Some (CStr "n/a")) (Some 0%Q) = Some 0%Q.
Proof. reflexivity. Qed.

Example parse_first_resistance_ex :
  parse_first_resistance "290 / 332 / 430 / 720" = Fin (290 # 1).
Proof. reflexivity. Qed.

(** ** Comparisons on [Q] and [xnum] *)

Lemma qltb_lt (a b : Q) : qltb a b = true <-> (a < b)%Q.
Proof.
  unfold qltb. rewrite negb_true_iff. split.
  - intros H. apply Qnot_le_lt. intros Hle.
    apply Qle_bool_iff in Hle. congruence.
  - intros H. destruct (Qle_bool b a) eqn:E; [|reflexivity].
    apply Qle_bool_iff in E. exfalso. exact (Qlt_not_le _ _ H E).
Qed.

Lemma qltb_ge (a b : Q) : qltb a b = false <-> (b <= a)%Q.
Proof.
  unfold qltb. rewrite negb_false_iff. apply Qle_bool_iff.
Qed.

Lemma xnum_le_refl (a : xnum) : xnum_le a a.
Proof.
  unfold xnum_le. destruct a as [q|]; simpl; [|reflexivity].
  apply qltb_ge. apply Qle_refl.
Qed.




(** ** The stable sort orders its input and keeps its elements *)

Section StableSortFacts.
Context {A : Type} (lt : A -> A -> bool) (le : A -> A -> Prop).
Hypothesis le_trans : forall a b c, le a b -> le b c -> le a c.
Hypothesis lt_le : forall a b, lt a b = true -> le a b.
Hypothesis nlt_le : forall a b, lt a b = false -> le b a.

Lemma insert_sorted_perm (x : A) (l : list A) :
  Permutation (x :: l) (insert_sorted lt x l).
Proof.
  induction l as [|y l IH]; simpl; [reflexivity|].
  destruct (lt y x); [|reflexivity].
  rewrite perm_swap. apply perm_skip. exact IH.
Qed.

Lemma stable_sort_perm (l : list A) : Permutation l (stable_sort lt l).
Proof.
  induction l as [|x l IH]; simpl; [reflexivity|].
  rewrite <- insert_sorted_perm. apply perm_skip. exact IH.
Qed.

Lemma insert_sorted_sorted (x : A) (l : list A) :
  StronglySorted le l -> StronglySorted le (insert_sorted lt x l).
Proof.
  induction l as [|y l IH]; intros Hs; simpl.
  - constructor; constructor.
  - inversion Hs as [|y' l' Hs' Hall]; subst.
    destruct (lt y x) eqn:E.
    + constructor; [apply IH; exact Hs'|].
      apply (Permutation_Forall (insert_sorted_perm x l)).
      constructor; [apply lt_le; exact E | exact Hall].
    + constructor; [exact Hs|].
      constructor; [apply nlt_le; exact E|].
      eapply Forall_impl; [exact Hall|].
      intros z Hz. simpl in Hz. eapply le_trans; [apply nlt_le; exact E | exact Hz].
Qed.

Lemma stable_sort_sorted (l : list A) : StronglySorted le (stable_sort lt l).
Proof.
  induction l as [|x l IH]; simpl; [constructor|].
  apply insert_sorted_sorted. exact IH.
Qed.

(** An element that nothing may precede stays in front. *)
Lemma stable_sort_head (x : A) (l : list A) :
  (forall y, In y l -> lt y x = false) ->
  exists tl, stable_sort lt (x :: l) = x :: tl /\ Permutation l tl.
Proof.
  intros Hx. simpl.
  assert (Hp := stable_sort_perm l).
  destruct (stable_sort lt l) as [|y tl] eqn:E; simpl.
  - exists []. split; [reflexivity | exact Hp].
  - rewrite Hx.
    + exists (y :: tl). split; [reflexivity | exact Hp].
    + apply (Permutation_in _ (Permutation_sym Hp)). left. reflexivity.
Qed.
End StableSortFacts.

Section Stability.
Context {A : Type} (lt : A -> A -> bool) (P : A -> bool).
Hypothesis class : forall x y, lt y x = true -> P x = true -> P y = true -> False.

Lemma insert_sorted_class (x : A) (l : list A) :
  List.filter P (insert_sorted lt x l) = List.filter P (x :: l).
Proof.
  induction l as [|y l IH]; [reflexivity|].
  cbn [insert_sorted]. destruct (lt y x) eqn:E; [|reflexivity].
  cbn [List.filter] in *. rewrite IH.
  destruct (P x) eqn:Px, (P y) eqn:Py; try reflexivity.
  exfalso. exact (class x y E Px Py).
Qed.

(** Elements that the order does not separate keep their relative
    position: the sort is stable. *)
Lemma stable_sort_class (l : list A) :
  List.filter P (stable_sort lt l) = List.filter P l.
Proof.
  induction l as [|x l IH]; [reflexivity|].
  cbn [stable_sort]. rewrite insert_sorted_class.
  cbn [List.filter]. rewrite IH. reflexivity.
Qed.
End Stability.

(** ** Primary scaling *)




(** ** The damage-type index *)

Lemma str_in_In (x : string) (l : list string) : str_in x l = true <-> In x l.
Proof.
  unfold str_in. rewrite existsb_exists. split.
  - intros (y & Hy & Heq). apply String.eqb_eq in Heq. subst. exact Hy.
  - intros H. exists x. split; [exact H | apply String.eqb_refl].
Qed.

Lemma bucket_bucket_append (k k' : string) (w : weapon) (b : buckets) :
  bucket k (bucket_append k' w b) =
  if String.eqb k' k then bucket k b ++ [w] else bucket k b.
Proof.
  unfold bucket. induction b as [|[k2 l] b IH]; simpl.
  - destruct (String.eqb k' k); reflexivity.
  - destruct (String.eqb_spec k2 k') as [E1|E1]; simpl.
    + subst k2. destruct (String.eqb k' k); reflexivity.
    + destruct (String.eqb_spec k2 k) as [E2|E2]; [|exact IH].
      subst k2. destruct (String.eqb_spec k' k) as [E3|E3]; [|reflexivity].
      congruence.
Qed.

Lemma bucket_add_tokens (w w' : weapon) (k : string) (toks : list string) (b : buckets) :
  In w' (bucket k (add_tokens w toks b)) <->
  In w' (bucket k b) \/ (w' = w /\ In k toks /\ In k physical_types).
Proof.
  revert b. induction toks as [|t toks IH]; intros b.
  - simpl. tauto.
  - change (add_tokens w (t :: toks) b)
      with (add_tokens w toks
              (if str_in t physical_types then bucket_append t w b else b)).
    rewrite IH. destruct (str_in t physical_types) eqn:E.
    + rewrite bucket_bucket_append. apply str_in_In in E.
      destruct (String.eqb_spec t k) as [Et|Et].
      * subst t. rewrite in_app_iff. simpl. intuition (subst; auto).
      * simpl. intuition (subst; auto; congruence).
    + assert (Hn : ~ In t physical_types).
      { intros H. apply str_in_In in H. congruence. }
      simpl. split.
      * intros [H|(H1 & H2 & H3)]; [left; exact H | right; auto].
      * intros [H|(H1 & [H2|H2] & H3)]; [left; exact H | | right; auto].
        subst t. contradiction.
Qed.

Lemma by_damage_type_index_weapon (idx : weapon_index) (w : weapon) :
  by_damage_type (index_weapon idx w) =
  add_tokens w (index_dmg_tokens (w_damage_type w)) (by_damage_type idx).
Proof. reflexivity. Qed.

Lemma bucket_fold_index (ws : list weapon) (idx : weapon_index) (w : weapon) (k : string) :
  In w (bucket k (by_damage_type (fold_left index_weapon ws idx))) <->
  In w (bucket k (by_damage_type idx)) \/
  (In w ws /\ In k (index_dmg_tokens (w_damage_type w)) /\ In k physical_types).
Proof.
  revert idx. induction ws as [|x ws IH]; intros idx; simpl.
  - tauto.
  - rewrite IH, by_damage_type_index_weapon, bucket_add_tokens. split.
    + intros [[H|(H1 & H2 & H3)]|(H1 & H2 & H3)]; [left; exact H | subst; right; auto | right; auto].
    + intros [H|([H1|H1] & H2 & H3)]; [left; left; exact H | subst; left; right; auto | right; auto].
Qed.

(** Membership in a damage-type bucket of the index, for any weapon list. *)
Lemma damage_bucket_iff (ws : list weapon) (w : weapon) (k : string) :
  In w (bucket k (by_damage_type (build_weapon_index ws))) <->
  In w ws /\ In k (index_dmg_tokens (w_damage_type w)) /\ In k physical_types.
Proof.
  unfold build_weapon_index. rewrite bucket_fold_index. simpl. tauto.
Qed.


(** ** The recommendation cap *)

Lemma recs_append_keys (build : string) (e : rec_entry) (recs : recs_t) :
  map fst (recs_append build e recs) = map fst recs.
Proof.
  induction recs as [|[k l] recs IH]; simpl; [reflexivity|].
  destruct (String.eqb k build); simpl; [reflexivity | now rewrite IH].
Qed.

Lemma recs_append_cap (build : string) (e : rec_entry) (recs : recs_t) :
  (length (recs_get build recs) < 2)%nat ->
  Forall (fun kv => (length (snd kv) <= 2)%nat) recs ->
  Forall (fun kv => (length (snd kv) <= 2)%nat) (recs_append build e recs).
Proof.
  unfold recs_get. induction recs as [|[k l] recs IH]; simpl; intros Hlt Hall.
  - constructor.
  - inversion Hall as [|x xs Hx Hxs]; subst. simpl in Hx.
    destruct (String.eqb k build).
    + constructor; [|exact Hxs]. simpl. rewrite length_app. simpl. lia.
    + constructor; [exact Hx|]. apply IH; assumption.
Qed.

Lemma recs_init_ok : recs_ok recs_init.
Proof.
  split; [reflexivity|]. unfold recs_init, builds. simpl.
  repeat constructor.
Qed.

Lemma distribute_step_ok (recs : recs_t) (s : scored_weapon) :
  recs_ok recs -> recs_ok (distribute_step recs s).
Proof.
  intros [Hk Hc]. unfold distribute_step.
  destruct (assoc_get (w_primary_scaling (sw s)) scaling_to_build) as [build|];
    [|split; assumption].
  destruct (length (recs_get build recs) <? 2)%nat eqn:E; [|split; assumption].
  apply Nat.ltb_lt in E. split.
  - rewrite recs_append_keys. exact Hk.
  - apply recs_append_cap; assumption.
Qed.

Lemma fallback_step_ok (stat build : string) (recs : recs_t) (s : scored_weapon) :
  recs_ok recs -> recs_ok (fallback_step stat build recs s).
Proof.
  intros [Hk Hc]. unfold fallback_step.
  destruct ((2 <=? grade_order _) && (length (recs_get build recs) <? 2)%nat) eqn:E;
    [|split; assumption].
  apply andb_true_iff in E. destruct E as [_ E]. apply Nat.ltb_lt in E. split.
  - rewrite recs_append_keys. exact Hk.
  - apply recs_append_cap; assumption.
Qed.

Lemma fold_left_ok {A : Type} (f : recs_t -> A -> recs_t) (l : list A) (recs : recs_t) :
  (forall r x, recs_ok r -> recs_ok (f r x)) ->
  recs_ok recs -> recs_ok (fold_left f l recs).
Proof.
  intros Hf. revert recs. induction l as [|x l IH]; intros recs H; simpl; auto.
Qed.

Lemma fallback_build_ok (scored : list scored_weapon) (recs : recs_t)
    (sb : string * string) :
  recs_ok recs -> recs_ok (fallback_build scored recs sb).
Proof.
  intros H. destruct sb as [stat build]. unfold fallback_build.
  destruct (recs_get build recs); [|exact H].
  destruct scored; [exact H|].
  apply fold_left_ok; [|exact H].
  intros r x. apply fallback_step_ok.
Qed.

(** The result of [distribute] is the final [recs] without its empty
    lists. *)
Lemma distribute_shape (scored : list scored_weapon) :
  exists recs,
    recs_ok recs /\
    distribute scored =
    List.filter (fun kv => match snd kv with [] => false | _ => true end) recs.
Proof.
  eexists. split; [|reflexivity].
  apply fold_left_ok; [intros r x; apply fallback_build_ok|].
  apply fold_left_ok; [intros r x; apply distribute_step_ok|].
  exact recs_init_ok.
Qed.

(** C5.  Every entry of a returned recommendation mapping belongs to one of
    the five build archetypes and holds one or two weapons: no archetype
    exceeds two entries, whichever loop filled it, and an archetype without
    picks is not in the mapping.  No archetype appears twice. *)
Theorem recommendation_cap (weakest : string) (vulns : list string)
    (idx : weapon_index) (details : list (string * string))
    (negation : list (string * Q)) :
  let recs := recommend_weapons weakest vulns idx details negation in
  Forall (fun kv =>
            In (fst kv) ["strength"; "dexterity"; "intelligence"; "faith"; "arcane"]
            /\ (1 <= length (snd kv) <= 2)%nat) recs
  /\ List.NoDup (map fst recs).
Proof.
  intros recs. unfold recs, recommend_weapons.
  destruct (distribute_shape
              (scored_candidates weakest vulns idx details negation))
    as (r & [Hk Hc] & ->).
  split.
  - apply List.Forall_forall. intros [k l] Hin.
    apply filter_In in Hin. destruct Hin as [Hin Hne]. simpl in Hne. cbn [fst snd].
    split.
    + change ["strength"; "dexterity"; "intelligence"; "faith"; "arcane"] with builds.
      rewrite <- Hk. apply in_map_iff. exists (k, l). split; [reflexivity | exact Hin].
    + rewrite List.Forall_forall in Hc. specialize (Hc _ Hin). simpl in Hc.
      destruct l; [discriminate | simpl in Hc |- *; lia].
  - assert (Hnd : List.NoDup (map fst r)).
    { rewrite Hk. apply NoDup_ListNoDup.
      apply (bool_decide_unpack _). vm_compute. exact I. }
    clear Hk Hc. induction r as [|[k l] r IH]; simpl; [constructor|].
    inversion Hnd as [|x xs Hx Hxs]; subst.
    destruct l; simpl; [apply IH; exact Hxs|].
    constructor; [|apply IH; exact Hxs].
    intros Hin. apply Hx. apply in_map_iff in Hin.
    destruct Hin as ([k' l'] & Hk' & Hin). simpl in Hk'. subst k'.
    apply filter_In in Hin. destruct Hin as [Hin _].
    apply in_map_iff. exists (k, l'). split; [reflexivity | exact Hin].
Qed.

(** ** The weakest physical type *)





(** ** The physical bonus *)

(** C2.  With the negations Standard 40, Slash 40, Strike 60, Pierce 60 the
    weakest type is Standard and the other types average (40+60+60)/3, above
    40, so the rule awards 3; the code drops every value equal to 40 from
    the sum, still divides by 3, compares 40 with 40 and awards 1.  With four
    equal negative negations the code awards 3 although nothing is weaker
    than anything else. *)
Theorem phys_bonus_drops_tied_values :
  phys_bonus "Standard" tied_negation = 1 /\
  phys_bonus_by_type "Standard" tied_negation = 3 /\
  fst (score_weapon "Standard" (phys_bonus "Standard" tied_negation) ∅ [] []
         (sample_weapon "Club" "Standard" "None" [])) = 1 /\
  phys_bonus "Standard" equal_negative_negation = 3 /\
  phys_bonus_by_type "Standard" equal_negative_negation = 1.
Proof. repeat split; vm_compute; reflexivity. Qed.

(** The bonus is added only to a weapon whose damage types include the
    weakest type. *)
Lemma no_physical_contribution (weakest : string) (bonus : Z)
    (weights : gmap string Z) (vulns : list string)
    (details : list (string * string)) (w : weapon) :
  str_in weakest (weapon_dmg_types w) = false ->
  get_weapon_status w = None ->
  score_weapon weakest bonus weights vulns details w = (0, []).
Proof.
  intros H1 H2. unfold score_weapon. rewrite H1, H2. reflexivity.
Qed.




(** ** Candidates of the recommendation engine *)

Lemma assoc_get_In {A : Type} (k : string) (d : list (string * A)) (v : A) :
  assoc_get k d = Some v -> In (k, v) d.
Proof.
  induction d as [|[k' v'] d IH]; simpl; [discriminate|].
  destruct (String.eqb_spec k' k) as [E|E].
  - intros [= ->]. subst. left. reflexivity.
  - intros H. right. apply IH. exact H.
Qed.

Lemma bucket_members (k : string) (b : buckets) (w : weapon) :
  In w (bucket k b) -> In w (members b).
Proof.
  unfold bucket, members. destruct (assoc_get k b) as [l|] eqn:E; [|intros []].
  intros Hw. apply in_concat. exists l. split; [|exact Hw].
  apply in_map_iff. exists (k, l). split; [reflexivity|].
  apply assoc_get_In. exact E.
Qed.

Lemma members_bucket_append (k : string) (w w' : weapon) (b : buckets) :
  In w' (members (bucket_append k w b)) <-> w' = w \/ In w' (members b).
Proof.
  unfold members. induction b as [|[k2 l] b IH]; simpl.
  - intuition.
  - destruct (String.eqb k2 k); simpl.
    + rewrite !in_app_iff. simpl. intuition.
    + rewrite !in_app_iff, IH. intuition.
Qed.

Lemma members_add_tokens (w w' : weapon) (toks : list string) (b : buckets) :
  In w' (members (add_tokens w toks b)) -> w' = w \/ In w' (members b).
Proof.
  revert b. induction toks as [|t toks IH]; intros b; [right; assumption|].
  change (add_tokens w (t :: toks) b)
    with (add_tokens w toks
            (if str_in t physical_types then bucket_append t w b else b)).
  intros H. apply IH in H. destruct H as [H|H]; [left; exact H|].
  destruct (str_in t physical_types); [|right; exact H].
  apply members_bucket_append in H. exact H.
Qed.

Lemma members_fold_index (ws : list weapon) (idx : weapon_index) (w : weapon) :
  In w (members (by_damage_type (fold_left index_weapon ws idx))
        ++ members (by_status (fold_left index_weapon ws idx))) ->
  In w ws \/ In w (members (by_damage_type idx) ++ members (by_status idx)).
Proof.
  revert idx. induction ws as [|x ws IH]; intros idx H; [right; exact H|].
  simpl in H. apply IH in H. destruct H as [H|H]; [left; right; exact H|].
  apply in_app_iff in H. destruct H as [H|H].
  - rewrite by_damage_type_index_weapon in H. apply members_add_tokens in H.
    destruct H as [H|H]; [left; left; symmetry; exact H|].
    right. apply in_app_iff. left. exact H.
  - simpl in H. destruct (index_status (w_passive_effect x)).
    + apply members_bucket_append in H.
      destruct H as [H|H]; [left; left; symmetry; exact H|].
      right. apply in_app_iff. right. exact H.
    + right. apply in_app_iff. right. exact H.
Qed.

(** Every candidate is a weapon of the list the index was built from. *)
Lemma dedup_subset (seen : gset string) (l : list weapon) (w : weapon) :
  In w (dedup_by_name seen l) -> In w l.
Proof.
  revert seen. induction l as [|x l IH]; intros seen; simpl; [trivial|].
  destruct (decide (w_name x ∈ seen)).
  - intros H. right. eapply IH. exact H.
  - intros [H|H]; [left; exact H | right; eapply IH; exact H].
Qed.

Lemma pool_subset (ws : list weapon) (w : weapon) :
  In w (members (by_damage_type (build_weapon_index ws))
        ++ members (by_status (build_weapon_index ws))) ->
  In w ws.
Proof.
  unfold build_weapon_index. intros H. apply members_fold_index in H.
  destruct H as [H|H]; [exact H|]. simpl in H. contradiction.
Qed.

Lemma candidates_subset (ws : list weapon) (w : weapon) :
  In w (candidates (build_weapon_index ws)) -> In w ws.
Proof.
  unfold candidates. intros H. apply dedup_subset in H.
  apply pool_subset. exact H.
Qed.

(** The first weapon of a name survives the deduplication. *)
Lemma dedup_keeps (seen : gset string) (l : list weapon) (w : weapon) :
  In w l ->
  w_name w ∉ seen ->
  (forall w', In w' l -> w_name w' = w_name w -> w' = w) ->
  In w (dedup_by_name seen l).
Proof.
  revert seen. induction l as [|x l IH]; intros seen Hin Hseen Huniq; [contradiction|].
  simpl. destruct (decide (w_name x ∈ seen)) as [Hx|Hx].
  - destruct Hin as [Hin|Hin]; [subst x; contradiction|].
    apply IH; [exact Hin | exact Hseen |].
    intros w' Hw'. apply Huniq. right. exact Hw'.
  - destruct (String.eqb_spec (w_name x) (w_name w)) as [E|E].
    + left. apply Huniq; [left; reflexivity | exact E].
    + destruct Hin as [Hin|Hin]; [subst x; contradiction|].
      right. apply IH; [exact Hin | |].
      * rewrite elem_of_union, elem_of_singleton.
        intros [H|H]; [congruence | contradiction].
      * intros w' Hw'. apply Huniq. right. exact Hw'.
Qed.

(** ** End-to-end scoring *)

Lemma sorted_before {A : Type} (R : A -> A -> Prop) (pre post : list A) (e : A) :
  StronglySorted R (pre ++ e :: post) -> Forall (fun x => R x e) pre.
Proof.
  induction pre as [|x pre IH]; simpl; intros H; [constructor|].
  inversion H as [|y l Hs Hall]; subst.
  constructor; [|apply IH; exact Hs].
  rewrite List.Forall_forall in Hall. apply Hall.
  apply in_or_app. right. left. reflexivity.
Qed.

Lemma led_by_bucket_append (x w : weapon) (k : string) (b : buckets) :
  led_by x b -> led_by x (bucket_append k w b).
Proof.
  intros (k0 & l & b' & ->). simpl.
  destruct (String.eqb k0 k).
  - exists k0, (l ++ [w]), b'. reflexivity.
  - exists k0, l, (bucket_append k w b'). reflexivity.
Qed.

Lemma led_by_add_tokens (x w : weapon) (toks : list string) (b : buckets) :
  led_by x b -> led_by x (add_tokens w toks b).
Proof.
  revert b. induction toks as [|t toks IH]; intros b H; [exact H|].
  change (add_tokens w (t :: toks) b)
    with (add_tokens w toks
            (if str_in t physical_types then bucket_append t w b else b)).
  apply IH. destruct (str_in t physical_types); [|exact H].
  apply led_by_bucket_append. exact H.
Qed.

Lemma led_by_fold_index (x : weapon) (ws : list weapon) (idx : weapon_index) :
  led_by x (by_damage_type idx) ->
  led_by x (by_damage_type (fold_left index_weapon ws idx)).
Proof.
  revert idx. induction ws as [|w ws IH]; intros idx H; [exact H|].
  simpl. apply IH. rewrite by_damage_type_index_weapon.
  apply led_by_add_tokens. exact H.
Qed.

Lemma candidates_head (x : weapon) (rest : list weapon) :
  w_damage_type x = "Standard" ->
  exists tl, candidates (build_weapon_index (x :: rest)) = x :: tl.
Proof.
  intros Hdt.
  assert (H : led_by x (by_damage_type (build_weapon_index (x :: rest)))).
  { unfold build_weapon_index. simpl. apply led_by_fold_index.
    rewrite by_damage_type_index_weapon, Hdt.
    exists "Standard", [], []. reflexivity. }
  destruct H as (k & l & b' & Hb). unfold candidates. rewrite Hb. simpl.
  destruct (decide (w_name x ∈ ∅)) as [Hin|_];
    [apply not_elem_of_empty in Hin; contradiction|].
  eexists. reflexivity.
Qed.

Lemma qeq_bool_false (x y : Q) : ~ (x == y)%Q -> Qeq_bool x y = false.
Proof.
  intros H. destruct (Qeq_bool x y) eqn:E; [|reflexivity].
  apply Qeq_bool_iff in E. contradiction.
Qed.

Lemma phys_bonus_four (a b c d : Q) :
  (a == 40)%Q -> (b == 60)%Q -> (c == 60)%Q -> (d == 60)%Q ->
  phys_bonus "Standard" [("Standard", a); ("Slash", b); ("Strike", c); ("Pierce", d)] = 3.
Proof.
  intros Ha Hb Hc Hd. unfold phys_bonus.
  cbn [assoc_get map snd fst length String.eqb Ascii.eqb Bool.eqb].
  assert (Haa : Qeq_bool a a = true) by (apply Qeq_bool_iff; reflexivity).
  assert (Hba : Qeq_bool b a = false)
    by (apply qeq_bool_false; rewrite Ha, Hb; discriminate).
  assert (Hca : Qeq_bool c a = false)
    by (apply qeq_bool_false; rewrite Ha, Hc; discriminate).
  assert (Hda : Qeq_bool d a = false)
    by (apply qeq_bool_false; rewrite Ha, Hd; discriminate).
  cbn [List.filter]. rewrite Haa, Hba, Hca, Hda. cbn [negb].
  assert (Hlt : qltb a (qsum [b; c; d] / inject_Z ((Z.of_nat 4 - 1) `max` 1)) = true).
  { apply qltb_lt. unfold qsum. cbn [fold_left].
    rewrite Ha, Hb, Hc, Hd. reflexivity. }
  rewrite Hlt. reflexivity.
Qed.

Lemma weakest_four (stats : gmap string cell) (a b c d : Q) :
  valid_phys stats = [("Standard", a); ("Slash", b); ("Strike", c); ("Pierce", d)] ->
  (a == 40)%Q -> (b == 60)%Q -> (c == 60)%Q -> (d == 60)%Q ->
  weakest_physical stats = "Standard".
Proof.
  intros Hv Ha Hb Hc Hd. unfold weakest_physical. rewrite Hv.
  cbn [min_by snd].
  assert (Hba : qltb b a = false) by (apply qltb_ge; rewrite Ha, Hb; discriminate).
  assert (Hca : qltb c a = false) by (apply qltb_ge; rewrite Ha, Hc; discriminate).
  assert (Hda : qltb d a = false) by (apply qltb_ge; rewrite Ha, Hd; discriminate).
  rewrite Hba. cbn [snd]. rewrite Hca. cbn [snd]. rewrite Hda. reflexivity.
Qed.

Lemma rot_score_target (w : weapon) :
  w_damage_type w = "Standard" -> w_passive_effect w = "Builds scarlet rot" ->
  score_weapon "Standard" 3 rot_weights ["Scarlet Rot"] rot_details w
  = (13, ["Exploits Standard weakness"; "Applies Scarlet Rot (boss resistance: 60/80)"]).
Proof.
  intros Hd Hp. unfold score_weapon, weapon_dmg_types, get_weapon_status.
  rewrite Hd, Hp. reflexivity.
Qed.

Lemma rot_score_bound (w : weapon) :
  fst (score_weapon "Standard" 3 rot_weights ["Scarlet Rot"] rot_details w) <= 13.
Proof.
  unfold score_weapon.
  destruct (str_in "Standard" (weapon_dmg_types w));
    destruct (get_weapon_status w) as [st|]; cbn -[rot_weights str_in]; try lia.
  all: unfold rot_weights.
  all: destruct (decide (st = "Scarlet Rot")) as [->|Hne];
    [ rewrite lookup_insert_eq
    | rewrite lookup_insert_ne, lookup_empty by congruence ].
  all: cbn -[str_in]; try lia.
  all: assert (Hs : str_in st ["Scarlet Rot"] = false)
         by (destruct (str_in st ["Scarlet Rot"]) eqn:E; [|reflexivity];
             apply str_in_In in E; destruct E as [E|[]]; congruence).
  all: rewrite ?Hs; cbn; lia.
Qed.

Lemma score_ge_trans (x y z : scored_weapon) : score_ge x y -> score_ge y z -> score_ge x z.
Proof. unfold score_ge. lia. Qed.

Lemma desc_score_ge (x y : scored_weapon) : desc x y = true -> score_ge x y.
Proof. unfold desc, score_ge. intros H. apply Z.ltb_lt in H. lia. Qed.

Lemma not_desc_score_ge (x y : scored_weapon) : desc x y = false -> score_ge y x.
Proof. unfold desc, score_ge. intros H. apply Z.ltb_ge in H. lia. Qed.

(** Candidates of equal score stay in the order of the candidate list. *)
Lemma scored_sort_stable (n : Z) (l : list scored_weapon) :
  List.filter (fun s => score s =? n) (stable_sort desc l)
  = List.filter (fun s => score s =? n) l.
Proof.
  apply stable_sort_class. intros x y Hlt Hx Hy. unfold desc in Hlt.
  apply Z.ltb_lt in Hlt. apply Z.eqb_eq in Hx, Hy. lia.
Qed.

Section EndToEnd.
Variable repr : literal -> string.
Variable stats : gmap string cell.
Variables a b c d : Q.
Hypothesis Hneg :
  valid_phys stats = [("Standard", a); ("Slash", b); ("Strike", c); ("Pierce", d)].
Hypothesis Ha : (a == 40)%Q.
Hypothesis Hb : (b == 60)%Q.
Hypothesis Hc : (c == 60)%Q.
Hypothesis Hd : (d == 60)%Q.
Hypothesis Hstat : status_details repr stats = [("Scarlet Rot", "60/80")].

Lemma rot_scored_candidates (idx : weapon_index) :
  scored_candidates (weakest_physical stats) (status_vulns repr stats) idx
    (status_details repr stats) (valid_phys stats)
  = stable_sort desc (omap rot_scorer (candidates idx)).
Proof.
  unfold scored_candidates, status_vulns.
  rewrite (weakest_four stats a b c d Hneg Ha Hb Hc Hd), Hstat, Hneg.
  rewrite (phys_bonus_four a b c d Ha Hb Hc Hd).
  reflexivity.
Qed.

Lemma rot_scored_bound (idx : weapon_index) (s : scored_weapon) :
  In s (stable_sort desc (omap rot_scorer (candidates idx))) -> score s <= 13.
Proof.
  intros H.
  apply (Permutation_in _ (Permutation_sym (stable_sort_perm desc _))) in H.
  apply list_elem_of_In, list_elem_of_omap in H.
  destruct H as (x & _ & Hx). unfold rot_scorer in Hx.
  destruct (0 <? _) in Hx; [|discriminate].
  injection Hx as <-. simpl. apply rot_score_bound.
Qed.
End EndToEnd.

(** C1 (amended).  For a boss record whose available negations are Standard
    40, Slash 60, Strike 60, Pierce 60 and whose only vulnerable status is
    Scarlet Rot at "60/80", and a weapon of damage type "Standard" with the
    passive effect "Builds scarlet rot": no candidate scores more than 13;
    when the weapon is in the list the index was built from and is the only
    weapon of its name there, it is in the scored list with the score 13
    (10 for the status, 3 for the physical bonus) and every candidate
    ranked before it also scores 13; when it is the first weapon of that
    list it is in first position. *)
Theorem end_to_end_score (repr : literal -> string) (stats : gmap string cell)
    (a b c d : Q) (ws : list weapon) (w : weapon) :
  valid_phys stats = [("Standard", a); ("Slash", b); ("Strike", c); ("Pierce", d)] ->
  (a == 40)%Q -> (b == 60)%Q -> (c == 60)%Q -> (d == 60)%Q ->
  status_details repr stats = [("Scarlet Rot", "60/80")] ->
  w_damage_type w = "Standard" ->
  w_passive_effect w = "Builds scarlet rot" ->
  let scored :=
    scored_candidates (weakest_physical stats) (status_vulns repr stats)
      (build_weapon_index ws) (status_details repr stats) (valid_phys stats) in
  let entry := {| sw := w; score := 13; reason := rot_reason |} in
  Forall (fun s => score s <= 13) scored /\
  (In w ws ->
   (forall w', In w' ws -> w_name w' = w_name w -> w' = w) ->
   exists pre post,
     scored = pre ++ entry :: post /\ Forall (fun s => score s = 13) pre) /\
  (forall rest, ws = w :: rest -> exists post, scored = entry :: post).
Proof.
  intros Hneg Ha Hb Hc Hd Hstat Hdt Hpe scored entry.
  assert (Hs : scored = stable_sort desc (omap rot_scorer (candidates (build_weapon_index ws))))
    by (apply (rot_scored_candidates repr stats a b c d); assumption).
  assert (Hentry : rot_scorer w = Some entry).
  { unfold rot_scorer. rewrite (rot_score_target w Hdt Hpe). reflexivity. }
  assert (Hbound : Forall (fun s => score s <= 13) scored).
  { rewrite Hs. apply List.Forall_forall. intros s. apply rot_scored_bound. }
  split; [exact Hbound|]. split.
  - intros Hin Huniq.
    assert (Hcand : In w (candidates (build_weapon_index ws))).
    { unfold candidates. apply dedup_keeps.
      - apply in_or_app. left. apply (bucket_members "Standard").
        apply damage_bucket_iff. rewrite Hdt. split; [exact Hin|].
        split; [left; reflexivity | left; reflexivity].
      - apply not_elem_of_empty.
      - intros w' Hw'. apply Huniq.
        apply pool_subset. exact Hw'. }
    assert (He : In entry scored).
    { rewrite Hs. apply (Permutation_in _ (stable_sort_perm desc _)).
      apply list_elem_of_In, list_elem_of_omap. exists w.
      split; [apply list_elem_of_In; exact Hcand | exact Hentry]. }
    apply in_split in He. destruct He as (pre & post & Heq).
    exists pre, post. split; [exact Heq|].
    assert (Hsorted : StronglySorted score_ge scored).
    { rewrite Hs. apply (stable_sort_sorted desc score_ge).
      - exact score_ge_trans.
      - exact desc_score_ge.
      - exact not_desc_score_ge. }
    rewrite Heq in Hsorted, Hbound. apply sorted_before in Hsorted.
    apply List.Forall_forall. intros s Hs'.
    rewrite List.Forall_forall in Hsorted, Hbound.
    specialize (Hsorted s Hs'). unfold score_ge in Hsorted. simpl in Hsorted.
    specialize (Hbound s (in_or_app _ _ _ (or_introl Hs'))). simpl in Hbound. lia.
  - intros rest ->.
    destruct (candidates_head w rest Hdt) as (tl & Htl).
    rewrite Hs, Htl.
    change (omap rot_scorer (w :: tl)) with
      (match rot_scorer w with Some y => y :: omap rot_scorer tl | None => omap rot_scorer tl end).
    rewrite Hentry.
    destruct (stable_sort_head desc entry (omap rot_scorer tl)) as (post & Hpost & _).
    + intros y Hy. unfold desc. apply Z.ltb_ge. simpl.
      assert (Hy' : In y scored).
      { rewrite Hs, Htl.
        apply (Permutation_in _ (stable_sort_perm desc _)).
        change (omap rot_scorer (w :: tl)) with
          (match rot_scorer w with Some y => y :: omap rot_scorer tl | None => omap rot_scorer tl end).
        rewrite Hentry. right. exact Hy. }
      rewrite List.Forall_forall in Hbound. apply Hbound. exact Hy'.
    + exists post. exact Hpost.
Qed.

(** ** Status vulnerabilities *)



Lemma xnum_ltb_tied (r x y : xnum) :
  xnum_ltb y x = true -> xnum_tied x r = true -> xnum_tied y r = true -> False.
Proof.
  unfold xnum_tied. rewrite !andb_true_iff, !negb_true_iff.
  intros Hlt [Hx1 Hx2] [Hy1 Hy2].
  destruct x as [x|], y as [y|], r as [r|]; simpl in *; try discriminate.
  apply qltb_lt in Hlt. apply qltb_ge in Hx1, Hx2, Hy1, Hy2.
  apply (Qlt_irrefl y). eapply Qlt_le_trans; [exact Hlt|].
  eapply Qle_trans; eassumption.
Qed.

(** Statuses of equal first tier stay in the order of the profile. *)
Lemma ranking_stable (r : xnum) (vulns : list string) (details : list (string * string)) :
  List.filter (fun sr => xnum_tied (snd sr) r) (rank_status_vulnerabilities vulns details)
  = List.filter (fun sr => xnum_tied (snd sr) r)
      (map (fun s => (s, parse_first_resistance (text_get s details))) vulns).
Proof.
  unfold rank_status_vulnerabilities. apply stable_sort_class.
  intros x y. apply xnum_ltb_tied.
Qed.



(** ** Fuzzy lookup *)

Lemma keys_In {V : Type} (d : gmap string V) (k : string) :
  In k (keys d) <-> is_Some (d !! k).
Proof.
  unfold keys. rewrite in_map_iff. split.
  - intros ([k' v] & <- & Hin). apply list_elem_of_In, elem_of_map_to_list in Hin.
    simpl. eauto.
  - intros [v Hv]. exists (k, v). split; [reflexivity|].
    apply list_elem_of_In, elem_of_map_to_list. exact Hv.
Qed.

Lemma best_of_In (l : list (Q * string)) (best : Q * string) :
  In (best_of best l) (best :: l).
Proof.
  revert best. induction l as [|x l IH]; intros best; simpl; [left; reflexivity|].
  destruct (pair_ltb best x).
  - right. apply IH.
  - destruct (IH best) as [H|H]; [left; exact H | right; right; exact H].
Qed.

Section FuzzyFacts.
Variable ratio : string -> string -> Q.
(** What [get_close_matches] returns for a cutoff in range: nothing, or
    one candidate whose similarity reaches the cutoff. *)
Lemma get_close_matches_spec (word : string) (ks : list string) (cutoff : Q) :
  (0 <= cutoff)%Q -> (cutoff <= 1)%Q ->
  exists ms,
    get_close_matches ratio word ks cutoff = (ks, Ok ms) /\
    (ms = [] \/ exists m, ms = [m] /\ In m ks /\ (cutoff <= ratio m word)%Q) /\
    ((forall x, In x ks -> (ratio x word < cutoff)%Q) -> ms = []).
Proof.
  intros H0 H1. unfold get_close_matches.
  apply Qle_bool_iff in H0, H1. rewrite H0, H1. simpl.
  set (scored := map (fun x => (ratio x word, x)) ks).
  set (kept := List.filter (fun rx => Qle_bool cutoff (fst rx)) scored).
  assert (Hkept : forall rx, In rx kept ->
                    In (snd rx) ks /\ (cutoff <= ratio (snd rx) word)%Q).
  { intros rx Hrx. apply filter_In in Hrx. destruct Hrx as [Hin Hle].
    apply in_map_iff in Hin. destruct Hin as (x & <- & Hx). simpl in *.
    split; [exact Hx | apply Qle_bool_iff; exact Hle]. }
  destruct kept as [|r rs] eqn:E.
  - exists []. split; [reflexivity|]. split; [left; reflexivity | trivial].
  - exists [snd (best_of r rs)]. split; [reflexivity|].
    destruct (Hkept _ (best_of_In rs r)) as [Hin Hle].
    split; [right; eexists; split; [reflexivity|]; split; assumption|].
    intros Hlow. exfalso.
    specialize (Hlow _ Hin). exact (Qlt_not_le _ _ Hlow Hle).
Qed.
End FuzzyFacts.

(** C7.  For a cutoff that difflib accepts (between 0 and 1; the default is
    0.75): when the normalised target is a key, its value is returned and no
    similarity was computed; when it is not a key, every key is scored, and
    if every key scores below the cutoff the lookup returns no match; in
    every case the lookup returns nothing or exactly one value of the
    mapping, the value of the target itself or of one key that reaches the
    cutoff, and the matcher returns at most one key. *)
Theorem fuzzy_lookup_contract (ratio : string -> string -> Q)
    (repr : literal -> string) {V : Type} (d : gmap string V)
    (key : option cell) (cutoff : Q) :
  (0 <= cutoff)%Q -> (cutoff <= 1)%Q ->
  let k := norm repr key in
  (forall v, d !! k = Some v ->
             fuzzy_get ratio repr d key cutoff = ([], Ok (Some v))) /\
  (d !! k = None -> fst (fuzzy_get ratio repr d key cutoff) = keys d) /\
  (d !! k = None ->
   (forall x, is_Some (d !! x) -> (ratio x k < cutoff)%Q) ->
   snd (fuzzy_get ratio repr d key cutoff) = Ok None) /\
  (exists r,
     snd (fuzzy_get ratio repr d key cutoff) = Ok r /\
     forall v, r = Some v ->
       exists x, d !! x = Some v /\ (x = k \/ (cutoff <= ratio x k)%Q)) /\
  (forall scored ms,
     get_close_matches ratio k (keys d) cutoff = (scored, Ok ms) ->
     (length ms <= 1)%nat).
Proof.
  intros H0 H1 k.
  destruct (get_close_matches_spec ratio k (keys d) cutoff H0 H1)
    as (ms & Hg & Hms & Hlow).
  split; [|split; [|split; [|split]]].
  - intros v Hv. unfold fuzzy_get. fold k. rewrite Hv. reflexivity.
  - intros Hk. unfold fuzzy_get. fold k. rewrite Hk, Hg. reflexivity.
  - intros Hk Hall. unfold fuzzy_get. fold k. rewrite Hk, Hg. simpl.
    rewrite Hlow; [reflexivity|].
    intros x Hx. apply Hall. apply keys_In. exact Hx.
  - unfold fuzzy_get. fold k. destruct (d !! k) as [v|] eqn:Hk.
    + exists (Some v). split; [reflexivity|]. intros v' [= <-].
      exists k. split; [exact Hk | left; reflexivity].
    + rewrite Hg. simpl. destruct Hms as [->|(m & -> & Hin & Hle)].
      * exists None. split; [reflexivity | discriminate].
      * exists (d !! m). split; [reflexivity|]. intros v Hv.
        exists m. split; [exact Hv | right; exact Hle].
  - intros scored ms' Hg'. rewrite Hg in Hg'. injection Hg' as _ <-.
    destruct Hms as [->|(m & -> & _)]; simpl; lia.
Qed.

(** ** Malformed fields *)

Lemma map_result_raise {A B : Type} (f : A -> result B) (l : list A) (x : A) (e : exn) :
  In x l -> f x = Raise e -> exists e', map_result f l = Raise e'.
Proof.
  induction l as [|y l IH]; intros Hin Hx; [contradiction|]. simpl.
  destruct Hin as [->|Hin].
  - rewrite Hx. simpl. eauto.
  - destruct (f y); simpl; [|eauto].
    destruct (IH Hin Hx) as (e' & ->). simpl. eauto.
Qed.

Lemma map_result_ok {A B : Type} (f : A -> result B) (l : list A) (ys : list B) :
  map_result f l = Ok ys -> Forall (fun y => exists x, In x l /\ f x = Ok y) ys.
Proof.
  revert ys. induction l as [|x l IH]; intros ys; simpl.
  - intros [= <-]. constructor.
  - destruct (f x) as [y|e] eqn:E; simpl; [|discriminate].
    destruct (map_result f l) as [ys'|e]; simpl; [|discriminate].
    intros [= <-]. constructor; [exists x; auto|].
    eapply Forall_impl; [apply IH; reflexivity|].
    intros z (x' & Hx' & Hz). exists x'. auto.
Qed.

(** A NaN in the dlc column makes the weapon enricher raise, whatever the
    other tables hold. *)
Lemma enrich_weapons_nan_dlc (ratio : string -> string -> Q)
    (literal_eval : string -> option literal) (repr : literal -> string)
    (data : dataset) (lore_lib : gmap string string)
    (df : list (gmap string cell)) (r : gmap string cell) :
  weapons data = Some df -> In r df -> r !! "dlc" = Some CNaN ->
  exists e, enrich_weapons ratio literal_eval repr data lore_lib = Raise e.
Proof.
  intros Hdf Hin Hdlc. unfold enrich_weapons. rewrite Hdf.
  eapply map_result_raise; [exact Hin|].
  unfold enrich_weapon. rewrite Hdlc. reflexivity.
Qed.

(** The dlc cell is the only field of a weapon row that can make the
    enricher raise. *)
Lemma enrich_weapon_total (ratio : string -> string -> Q)
    (literal_eval : string -> option literal) (repr : literal -> string)
    (lore_lib : gmap string string)
    (scaling_lookup dmg_lookup : gmap string (list (string * string)))
    (r : gmap string cell) (z : Z) :
  py_int (r !! "dlc") 0 = Ok z ->
  exists w, enrich_weapon ratio literal_eval repr lore_lib scaling_lookup dmg_lookup r = Ok w
            /\ w_dlc w = z.
Proof.
  intros H. unfold enrich_weapon. rewrite H. simpl. eexists. split; reflexivity.
Qed.

(** C8.  A weapon row whose dlc cell is blank (NaN) makes [enrich_weapons]
    raise ValueError: [int(row.get("dlc", 0))] is the one field of the row
    that is not read through a coercion utility.  The utilities themselves
    give the default on the same cell. *)
Theorem enrich_weapons_raises_on_blank_dlc :
  enrich_weapons sample_ratio sample_literal_eval sample_repr blank_dlc_data ∅
  = Raise ValueError /\
  safe_str sample_repr (blank_dlc_row !! "dlc") "0" = "0" /\
  safe_float (blank_dlc_row !! "dlc") (Some 0%Q) = Some 0%Q.
Proof. repeat split; vm_compute; reflexivity. Qed.

(** ** Field sets of enriched bosses *)



(** ** The properties at concrete inputs *)

(** C1 (counterexample).  An index built from the Antspur Rapier and then
    the Rotten Club: both score 13, and the Rotten Club, the weapon of
    damage type "Standard" with the passive effect "Builds scarlet rot", is
    in second position. *)
Lemma end_to_end_not_first :
  map (fun s => (w_name (sw s), score s))
      (scored_candidates (weakest_physical rot_stats)
         (status_vulns sample_repr rot_stats)
         (build_weapon_index [antspur_rapier; rotten_club])
         (status_details sample_repr rot_stats) (valid_phys rot_stats))
  = [("Antspur Rapier", 13); ("Rotten Club", 13)].
Proof. vm_compute. reflexivity. Qed.

Lemma end_to_end_score_witness :
  exists post,
    scored_candidates (weakest_physical rot_stats)
      (status_vulns sample_repr rot_stats)
      (build_weapon_index [rotten_club; antspur_rapier])
      (status_details sample_repr rot_stats) (valid_phys rot_stats)
    = {| sw := rotten_club; score := 13; reason := rot_reason |} :: post.
Proof.
  apply (proj2 (proj2 (end_to_end_score sample_repr rot_stats 40 60 60 60
                         [rotten_club; antspur_rapier] rotten_club
                         eq_refl (Qeq_refl _) (Qeq_refl _) (Qeq_refl _)
                         (Qeq_refl _) eq_refl eq_refl eq_refl))
           [antspur_rapier]).
  reflexivity.
Defined.


Lemma fuzzy_lookup_contract_witness :
  fuzzy_get sample_ratio sample_repr club_lookup (Some (CStr " Club ")) FUZZY_CUTOFF
  = ([], Ok (Some 1)).
Proof.
  apply (proj1 (fuzzy_lookup_contract sample_ratio sample_repr club_lookup
                  (Some (CStr " Club ")) FUZZY_CUTOFF
                  ltac:(discriminate) ltac:(discriminate))).
  reflexivity.
Defined.


(** * Further properties of the code *)

(** ** Normal forms of names *)

Lemma is_space_lower_char (c : ascii) :
  PyStr.is_space (PyStr.lower_char c) = PyStr.is_space c.
Proof. destruct c as [[] [] [] [] [] [] [] []]; reflexivity. Qed.

Lemma lower_char_idem (c : ascii) :
  PyStr.lower_char (PyStr.lower_char c) = PyStr.lower_char c.
Proof. destruct c as [[] [] [] [] [] [] [] []]; reflexivity. Qed.

Lemma lower_cons (c : ascii) (s : string) :
  PyStr.lower (String c s) = String (PyStr.lower_char c) (PyStr.lower s).
Proof. reflexivity. Qed.

Lemma lower_idem (s : string) : PyStr.lower (PyStr.lower s) = PyStr.lower s.
Proof.
  induction s as [|c s IH]; [reflexivity|].
  rewrite !lower_cons, lower_char_idem, IH. reflexivity.
Qed.

Lemma lower_lstrip (s : string) :
  PyStr.lower (PyStr.lstrip s) = PyStr.lstrip (PyStr.lower s).
Proof.
  induction s as [|c s IH]; [reflexivity|].
  rewrite lower_cons. cbn [PyStr.lstrip]. rewrite is_space_lower_char.
  destruct (PyStr.is_space c); [exact IH | apply lower_cons].
Qed.

Lemma lower_rstrip (s : string) :
  PyStr.lower (PyStr.rstrip s) = PyStr.rstrip (PyStr.lower s).
Proof.
  induction s as [|c s IH]; [reflexivity|].
  rewrite lower_cons. cbn [PyStr.rstrip]. rewrite <- IH, is_space_lower_char.
  destruct (PyStr.rstrip s) as [|c' r].
  - change (PyStr.lower EmptyString) with EmptyString. cbn iota.
    destruct (PyStr.is_space c); reflexivity.
  - rewrite (lower_cons c' r). cbn iota. rewrite <- (lower_cons c' r).
    apply lower_cons.
Qed.

Lemma lower_strip (s : string) :
  PyStr.lower (PyStr.strip s) = PyStr.strip (PyStr.lower s).
Proof. unfold PyStr.strip. rewrite lower_rstrip, lower_lstrip. reflexivity. Qed.

Lemma lower_collapse_ws (s : string) :
  PyStr.lower (PyStr.collapse_ws s) = PyStr.collapse_ws (PyStr.lower s).
Proof.
  induction s as [|c s IH]; [reflexivity|].
  rewrite lower_cons. cbn [PyStr.collapse_ws]. rewrite is_space_lower_char.
  destruct (PyStr.is_space c) eqn:Ec.
  - destruct s as [|c' s']; [reflexivity|].
    rewrite (lower_cons c' s'), is_space_lower_char, <- (lower_cons c' s').
    destruct (PyStr.is_space c') eqn:Ec'; [exact IH|].
    rewrite lower_cons, IH. reflexivity.
  - rewrite lower_cons, IH. reflexivity.
Qed.

Lemma lstrip_no_lead (s : string) : no_lead (PyStr.lstrip s).
Proof.
  induction s as [|c s IH]; simpl; [exact I|].
  destruct (PyStr.is_space c) eqn:E; [exact IH | exact E].
Qed.

Lemma no_lead_lstrip (s : string) : no_lead s -> PyStr.lstrip s = s.
Proof. destruct s as [|c s]; simpl; [reflexivity|]. intros ->. reflexivity. Qed.

Lemma no_lead_rstrip (s : string) : no_lead s -> no_lead (PyStr.rstrip s).
Proof.
  destruct s as [|c s]; simpl; [trivial|]. intros E.
  destruct (PyStr.rstrip s); [rewrite E|]; exact E.
Qed.

Lemma rstrip_cons_fixed (c : ascii) (s : string) :
  s <> EmptyString -> PyStr.rstrip s = s -> PyStr.rstrip (String c s) = String c s.
Proof.
  intros Hne Hs. cbn [PyStr.rstrip]. rewrite Hs.
  destruct s; [contradiction | reflexivity].
Qed.

Lemma rstrip_idem (s : string) : PyStr.rstrip (PyStr.rstrip s) = PyStr.rstrip s.
Proof.
  induction s as [|c s IH]; [reflexivity|].
  cbn [PyStr.rstrip]. destruct (PyStr.rstrip s) as [|c' r] eqn:E.
  - destruct (PyStr.is_space c) eqn:Ec; [reflexivity|].
    cbn [PyStr.rstrip]. rewrite Ec. reflexivity.
  - apply rstrip_cons_fixed; [discriminate | exact IH].
Qed.

Lemma strip_idem (s : string) : PyStr.strip (PyStr.strip s) = PyStr.strip s.
Proof.
  unfold PyStr.strip.
  rewrite (no_lead_lstrip (PyStr.rstrip (PyStr.lstrip s)))
    by (apply no_lead_rstrip, lstrip_no_lead).
  apply rstrip_idem.
Qed.

Lemma collapse_ws_empty (s : string) :
  PyStr.collapse_ws s = EmptyString -> s = EmptyString.
Proof.
  induction s as [|c s IH]; [reflexivity|].
  cbn [PyStr.collapse_ws]. destruct (PyStr.is_space c); [|discriminate].
  destruct s as [|c' s']; [discriminate|].
  destruct (PyStr.is_space c'); [|discriminate].
  intros H. apply IH in H. discriminate.
Qed.

Lemma collapse_ws_nonspace (c : ascii) (s : string) :
  PyStr.is_space c = false ->
  PyStr.collapse_ws (String c s) = String c (PyStr.collapse_ws s).
Proof. intros H. cbn [PyStr.collapse_ws]. rewrite H. reflexivity. Qed.

Lemma collapse_ws_space_nonspace (c : ascii) (s : string) :
  PyStr.is_space c = false ->
  PyStr.collapse_ws (String " " (String c s))
  = String " " (PyStr.collapse_ws (String c s)).
Proof.
  intros H. rewrite (collapse_ws_nonspace c s H).
  cbn [PyStr.collapse_ws]. change (PyStr.is_space " ") with true.
  cbn iota. rewrite H. reflexivity.
Qed.

Lemma collapse_ws_idem (s : string) :
  PyStr.collapse_ws (PyStr.collapse_ws s) = PyStr.collapse_ws s.
Proof.
  induction s as [|c s IH]; [reflexivity|].
  destruct (PyStr.is_space c) eqn:Ec.
  - destruct s as [|c' s'].
    + cbn [PyStr.collapse_ws]. rewrite Ec. reflexivity.
    + destruct (PyStr.is_space c') eqn:Ec'.
      * assert (H : PyStr.collapse_ws (String c (String c' s'))
                    = PyStr.collapse_ws (String c' s'))
          by (cbn [PyStr.collapse_ws]; rewrite Ec, Ec'; reflexivity).
        rewrite H. exact IH.
      * assert (H : PyStr.collapse_ws (String c (String c' s'))
                    = String " " (PyStr.collapse_ws (String c' s')))
          by (cbn [PyStr.collapse_ws]; rewrite Ec, Ec'; reflexivity).
        rewrite H. rewrite (collapse_ws_nonspace c' s' Ec') in IH |- *.
        rewrite (collapse_ws_space_nonspace c' _ Ec'), IH. reflexivity.
  - rewrite (collapse_ws_nonspace c s Ec).
    rewrite (collapse_ws_nonspace c _ Ec), IH. reflexivity.
Qed.

Lemma no_lead_collapse_ws (s : string) : no_lead s -> no_lead (PyStr.collapse_ws s).
Proof.
  destruct s as [|c s]; [trivial|]. cbn [PyStr.collapse_ws no_lead].
  intros E. rewrite E. exact E.
Qed.

Lemma rstrip_collapse_ws (s : string) :
  PyStr.rstrip s = s -> PyStr.rstrip (PyStr.collapse_ws s) = PyStr.collapse_ws s.
Proof.
  induction s as [|c s IH]; [reflexivity|].
  intros H. cbn [PyStr.rstrip] in H. fold PyStr.rstrip in H.
  destruct (PyStr.rstrip s) as [|c' r] eqn:E.
  - destruct (PyStr.is_space c) eqn:Ec; [discriminate|].
    injection H as <-. cbn [PyStr.collapse_ws]. rewrite Ec. simpl. rewrite Ec. reflexivity.
  - injection H as Hs. rewrite Hs in E.
    assert (Hne : s <> EmptyString) by (rewrite <- Hs; discriminate).
    assert (Hc : PyStr.collapse_ws s <> EmptyString)
      by (intros Hc; apply collapse_ws_empty in Hc; contradiction).
    specialize (IH Hs).
    cbn [PyStr.collapse_ws]. destruct (PyStr.is_space c).
    + destruct s as [|c2 s2]; [contradiction|].
      destruct (PyStr.is_space c2); [exact IH|].
      apply rstrip_cons_fixed; assumption.
    + apply rstrip_cons_fixed; assumption.
Qed.

Lemma strip_collapse_ws (s : string) :
  PyStr.strip s = s -> PyStr.strip (PyStr.collapse_ws s) = PyStr.collapse_ws s.
Proof.
  intros H.
  assert (Hl : no_lead s).
  { rewrite <- H. unfold PyStr.strip. apply no_lead_rstrip, lstrip_no_lead. }
  assert (Hr : PyStr.rstrip s = s).
  { rewrite <- H at 1. unfold PyStr.strip. rewrite rstrip_idem. exact H. }
  unfold PyStr.strip.
  rewrite (no_lead_lstrip _ (no_lead_collapse_ws _ Hl)).
  apply rstrip_collapse_ws. exact Hr.
Qed.

(** X1.  [norm] yields a normal form: normalising a normalised name changes
    nothing, and a name has the same normal form whatever its letter case
    and its surrounding whitespace.  A missing name normalises to the empty
    text. *)
Theorem norm_normal_form (repr : literal -> string) (s : string) :
  let n := norm repr (Some (CStr s)) in
  norm repr (Some (CStr n)) = n /\
  norm repr (Some (CStr (PyStr.strip s))) = n /\
  norm repr (Some (CStr (PyStr.lower s))) = n /\
  PyStr.lower n = n /\
  PyStr.strip n = n /\
  norm repr None = EmptyString /\
  norm repr (Some CNaN) = EmptyString.
Proof.
  intros n. unfold n, norm, py_str.
  assert (Hs : PyStr.strip (PyStr.collapse_ws (PyStr.strip (PyStr.lower s)))
               = PyStr.collapse_ws (PyStr.strip (PyStr.lower s)))
    by (apply strip_collapse_ws, strip_idem).
  assert (Hl : PyStr.lower (PyStr.collapse_ws (PyStr.strip (PyStr.lower s)))
               = PyStr.collapse_ws (PyStr.strip (PyStr.lower s)))
    by (rewrite lower_collapse_ws, lower_strip, lower_idem; reflexivity).
  repeat split.
  - rewrite Hl, Hs. apply collapse_ws_idem.
  - rewrite lower_strip, strip_idem. reflexivity.
  - rewrite lower_idem. reflexivity.
  - exact Hl.
  - exact Hs.
Qed.

(** ** Lookups built from a table *)

(** The dictionary a loop of assignments [d[key(r)] = val(r)] leaves: a key
    holds the value of the last row that has it. *)
Lemma fold_insert_last {V : Type} (key : gmap string cell -> string)
    (val : gmap string cell -> V) (pre post : list (gmap string cell))
    (r : gmap string cell) (acc : gmap string V) :
  (forall r', In r' post -> key r' <> key r) ->
  fold_left (fun m x => <[key x := val x]> m) (pre ++ r :: post) acc !! key r
  = Some (val r).
Proof.
  intros Hpost. rewrite fold_left_app. cbn [fold_left].
  generalize (fold_left (fun m x => <[key x := val x]> m) pre acc). intros m.
  assert (H : (<[key r := val r]> m) !! key r = Some (val r))
    by apply lookup_insert_eq.
  revert H. generalize (<[key r := val r]> m). clear m.
  induction post as [|x post IH]; intros m H; [exact H|].
  cbn [fold_left]. apply IH.
  - intros r' Hr'. apply Hpost. right. exact Hr'.
  - rewrite lookup_insert_ne; [exact H|]. apply Hpost. left. reflexivity.
Qed.

Lemma fold_insert_absent {V : Type} (key : gmap string cell -> string)
    (val : gmap string cell -> V) (rows : list (gmap string cell))
    (k : string) (acc : gmap string V) :
  (forall r, In r rows -> key r <> k) ->
  fold_left (fun m x => <[key x := val x]> m) rows acc !! k = acc !! k.
Proof.
  revert acc. induction rows as [|x rows IH]; intros acc H; [reflexivity|].
  cbn [fold_left]. rewrite IH by (intros r Hr; apply H; right; exact Hr).
  apply lookup_insert_ne. apply H. left. reflexivity.
Qed.

Lemma keys_empty {V : Type} : keys (∅ : gmap string V) = [].
Proof. unfold keys. rewrite map_to_list_empty. reflexivity. Qed.

Lemma build_lookup_last (repr : literal -> string) {V : Type} (name_col : string)
    (f : gmap string cell -> V) (pre post : list (gmap string cell))
    (r : gmap string cell) (k : string) :
  norm repr (r !! name_col) = k ->
  (forall r', In r' post -> norm repr (r' !! name_col) <> k) ->
  build_lookup repr name_col f (Some (pre ++ r :: post)) !! k = Some (f r).
Proof.
  intros Hr Hpost. unfold build_lookup. rewrite <- Hr.
  apply (fold_insert_last (fun x => norm repr (x !! name_col)) f).
  intros r' Hr'. rewrite Hr. apply Hpost. exact Hr'.
Qed.

Lemma fuzzy_get_exact (ratio : string -> string -> Q) (repr : literal -> string)
    {V : Type} (d : gmap string V) (name : string) (v : V) :
  d !! norm repr (Some (CStr name)) = Some v ->
  fuzzy_get ratio repr d (Some (CStr name)) FUZZY_CUTOFF = ([], Ok (Some v)).
Proof. intros H. unfold fuzzy_get. rewrite H. reflexivity. Qed.

Lemma fuzzy_find_exact (ratio : string -> string -> Q) (repr : literal -> string)
    {V : Type} (d : gmap string V) (name : string) (v : V) :
  d !! norm repr (Some (CStr name)) = Some v ->
  fuzzy_find ratio repr d name = Some v.
Proof.
  intros H. unfold fuzzy_find. rewrite (fuzzy_get_exact ratio repr d name v H).
  reflexivity.
Qed.

Lemma fuzzy_find_empty (ratio : string -> string -> Q) (repr : literal -> string)
    {V : Type} (name : string) :
  fuzzy_find ratio repr (∅ : gmap string V) name = None.
Proof.
  unfold fuzzy_find, fuzzy_get. rewrite lookup_empty.
  unfold get_close_matches. rewrite keys_empty. reflexivity.
Qed.

(** X2.  A name that a row of the auxiliary table carries, up to
    normalisation, resolves by exact match to what the last such row gives,
    and no similarity is computed.  When the table is absent or empty every
    lookup ends without a match. *)
Theorem lookup_round_trip (ratio : string -> string -> Q)
    (repr : literal -> string) {V : Type} (name_col : string)
    (f : gmap string cell -> V) (pre post : list (gmap string cell))
    (r : gmap string cell) (name : string) :
  norm repr (r !! name_col) = norm repr (Some (CStr name)) ->
  (forall r', In r' post ->
              norm repr (r' !! name_col) <> norm repr (Some (CStr name))) ->
  fuzzy_get ratio repr (build_lookup repr name_col f (Some (pre ++ r :: post)))
    (Some (CStr name)) FUZZY_CUTOFF = ([], Ok (Some (f r))) /\
  fuzzy_find ratio repr (build_lookup repr name_col f (Some (pre ++ r :: post))) name
  = Some (f r) /\
  fuzzy_find ratio repr (build_lookup repr name_col f None) name = None /\
  fuzzy_find ratio repr (build_lookup repr name_col f (Some [])) name = None.
Proof.
  intros Hr Hpost.
  pose proof (build_lookup_last repr name_col f pre post r _ Hr Hpost) as Hl.
  split; [apply fuzzy_get_exact; exact Hl|].
  split; [apply fuzzy_find_exact; exact Hl|].
  split; apply fuzzy_find_empty.
Qed.

(** ** The best match *)

Lemma pair_ltb_false (a b : Q * string) :
  pair_ltb a b = false -> (fst b <= fst a)%Q.
Proof.
  unfold pair_ltb. intros H. apply orb_false_iff in H. destruct H as [H _].
  apply qltb_ge. exact H.
Qed.

Lemma pair_ltb_true (a b : Q * string) :
  pair_ltb a b = true -> (fst a <= fst b)%Q.
Proof.
  unfold pair_ltb. intros H. apply orb_true_iff in H. destruct H as [H|H].
  - apply Qlt_le_weak, qltb_lt. exact H.
  - apply andb_true_iff in H. destruct H as [H _].
    apply Qeq_bool_iff in H. rewrite H. apply Qle_refl.
Qed.

Lemma best_of_max (l : list (Q * string)) (best : Q * string) (x : Q * string) :
  In x (best :: l) -> (fst x <= fst (best_of best l))%Q.
Proof.
  revert best x. induction l as [|y l IH]; intros best x Hin.
  - destruct Hin as [<-|[]]. apply Qle_refl.
  - cbn [best_of]. destruct (pair_ltb best y) eqn:E.
    + destruct Hin as [<-|Hin].
      * eapply Qle_trans; [apply pair_ltb_true; exact E|].
        apply IH. left. reflexivity.
      * apply IH. exact Hin.
    + destruct Hin as [<-|[<-|Hin]].
      * apply IH. left. reflexivity.
      * eapply Qle_trans; [apply pair_ltb_false; exact E|].
        apply IH. left. reflexivity.
      * apply IH. right. exact Hin.
Qed.

(** X3.  When the target is not a key and the lookup still returns a value,
    the value is that of a key whose similarity to the normalised target
    reaches the cutoff and is the highest among all keys. *)
Theorem fuzzy_best_match (ratio : string -> string -> Q)
    (repr : literal -> string) {V : Type} (d : gmap string V)
    (key : option cell) (cutoff : Q) (v : V) :
  d !! norm repr key = None ->
  snd (fuzzy_get ratio repr d key cutoff) = Ok (Some v) ->
  exists m,
    d !! m = Some v /\
    (cutoff <= ratio m (norm repr key))%Q /\
    forall x, is_Some (d !! x) -> (ratio x (norm repr key) <= ratio m (norm repr key))%Q.
Proof.
  intros Hk. unfold fuzzy_get. rewrite Hk. unfold get_close_matches.
  destruct (Qle_bool 0 cutoff && Qle_bool cutoff 1); [|discriminate].
  set (k := norm repr key).
  set (scored := map (fun x => (ratio x k, x)) (keys d)).
  destruct (List.filter (fun rx => Qle_bool cutoff (fst rx)) scored)
    as [|r rs] eqn:E; [discriminate|].
  cbn [snd bind]. intros [= Hv].
  pose proof (best_of_In rs r) as Hin. rewrite <- E in Hin.
  apply filter_In in Hin. destruct Hin as [Hin Hle].
  apply in_map_iff in Hin. destruct Hin as (m & Hm & Hmk).
  apply Qle_bool_iff in Hle. rewrite <- Hm in Hle, Hv. cbn [fst snd] in Hle, Hv.
  exists m. split; [exact Hv|]. split; [exact Hle|].
  intros x Hx. apply keys_In in Hx.
  destruct (Qle_bool cutoff (ratio x k)) eqn:Ex.
  - assert (Hxin : In (ratio x k, x) (r :: rs)).
    { rewrite <- E. apply filter_In. split; [|exact Ex].
      apply in_map_iff. exists x. split; [reflexivity | exact Hx]. }
    pose proof (best_of_max rs r _ Hxin) as Hb. rewrite <- Hm in Hb. exact Hb.
  - eapply Qle_trans; [|exact Hle]. apply Qlt_le_weak.
    apply Qnot_le_lt. intros Hc. apply Qle_bool_iff in Hc. congruence.
Qed.

(** ** The status, category and scaling buckets *)

Lemma bucket_fold_append (key : weapon -> option string)
    (ws : list weapon) (b : buckets) (k : string) :
  bucket k (fold_left (fun acc w => match key w with
                                    | Some k' => bucket_append k' w acc
                                    | None => acc
                                    end) ws b)
  = bucket k b
    ++ List.filter (fun w => match key w with
                             | Some k' => String.eqb k' k
                             | None => false
                             end) ws.
Proof.
  revert b. induction ws as [|w ws IH]; intros b.
  - cbn [fold_left List.filter]. rewrite app_nil_r. reflexivity.
  - cbn [fold_left List.filter]. rewrite IH. destruct (key w) as [k'|].
    + rewrite bucket_bucket_append. destruct (String.eqb k' k).
      * rewrite <- app_assoc. reflexivity.
      * reflexivity.
    + reflexivity.
Qed.

Lemma by_status_fold (ws : list weapon) (idx : weapon_index) :
  by_status (fold_left index_weapon ws idx)
  = fold_left (fun acc w => match index_status (w_passive_effect w) with
                            | Some k' => bucket_append k' w acc
                            | None => acc
                            end) ws (by_status idx).
Proof.
  revert idx. induction ws as [|w ws IH]; intros idx; [reflexivity|].
  cbn [fold_left]. rewrite IH. reflexivity.
Qed.

Lemma by_category_fold (ws : list weapon) (idx : weapon_index) :
  by_category (fold_left index_weapon ws idx)
  = fold_left (fun acc w => bucket_append (w_category w) w acc) ws (by_category idx).
Proof.
  revert idx. induction ws as [|w ws IH]; intros idx; [reflexivity|].
  cbn [fold_left]. rewrite IH. reflexivity.
Qed.

Lemma by_scaling_fold (ws : list weapon) (idx : weapon_index) :
  by_scaling (fold_left index_weapon ws idx)
  = fold_left (fun acc w => bucket_append (w_primary_scaling w) w acc) ws
      (by_scaling idx).
Proof.
  revert idx. induction ws as [|w ws IH]; intros idx; [reflexivity|].
  cbn [fold_left]. rewrite IH. reflexivity.
Qed.

(** X4.  The status bucket of a status holds, in the order of the weapon
    list, exactly the weapons whose passive effect the index detects as
    that status, so a weapon is in at most one status bucket; the category
    and the scaling buckets hold exactly the weapons of that category and
    of that primary scaling stat. *)
Theorem index_buckets_are_filters (ws : list weapon) (k : string) :
  let idx := build_weapon_index ws in
  bucket k (by_status idx)
  = List.filter (fun w => match index_status (w_passive_effect w) with
                          | Some st => String.eqb st k
                          | None => false
                          end) ws /\
  bucket k (by_category idx)
  = List.filter (fun w => String.eqb (w_category w) k) ws /\
  bucket k (by_scaling idx)
  = List.filter (fun w => String.eqb (w_primary_scaling w) k) ws /\
  (forall w k1 k2,
     In w (bucket k1 (by_status idx)) -> In w (bucket k2 (by_status idx)) -> k1 = k2).
Proof.
  intros idx. unfold idx, build_weapon_index.
  assert (Hs : forall k0, bucket k0 (by_status (fold_left index_weapon ws empty_index))
               = List.filter (fun w => match index_status (w_passive_effect w) with
                                       | Some st => String.eqb st k0
                                       | None => false
                                       end) ws).
  { intros k0. rewrite by_status_fold.
    apply (bucket_fold_append (fun w => index_status (w_passive_effect w))). }
  split; [apply Hs|].
  split; [rewrite by_category_fold;
          apply (bucket_fold_append (fun w => Some (w_category w)))|].
  split; [rewrite by_scaling_fold;
          apply (bucket_fold_append (fun w => Some (w_primary_scaling w)))|].
  intros w k1 k2 H1 H2. rewrite Hs in H1, H2.
  apply filter_In in H1, H2. destruct H1 as [_ H1], H2 as [_ H2].
  destruct (index_status (w_passive_effect w)) as [st|]; [|discriminate].
  apply String.eqb_eq in H1, H2. congruence.
Qed.

(** ** Deduplicated candidates *)

Lemma dedup_fresh (seen : gset string) (l : list weapon) (w : weapon) :
  In w (dedup_by_name seen l) -> w_name w ∉ seen.
Proof.
  revert seen. induction l as [|x l IH]; intros seen; [intros []|].
  cbn [dedup_by_name]. destruct (decide (w_name x ∈ seen)) as [Hx|Hx].
  - apply IH.
  - intros [<-|H]; [exact Hx|].
    apply IH in H. rewrite elem_of_union in H. tauto.
Qed.

Lemma dedup_nodup (seen : gset string) (l : list weapon) :
  List.NoDup (map w_name (dedup_by_name seen l)).
Proof.
  revert seen. induction l as [|x l IH]; intros seen; [constructor|].
  cbn [dedup_by_name]. destruct (decide (w_name x ∈ seen)) as [Hx|Hx]; [apply IH|].
  cbn [map]. constructor; [|apply IH].
  intros Hin. apply in_map_iff in Hin. destruct Hin as (w & Hw & Hin).
  apply dedup_fresh in Hin. apply Hin.
  rewrite elem_of_union, elem_of_singleton. left. exact Hw.
Qed.

Lemma dedup_covers (seen : gset string) (l : list weapon) (w : weapon) :
  In w l -> w_name w ∉ seen ->
  exists w', In w' (dedup_by_name seen l) /\ w_name w' = w_name w.
Proof.
  revert seen. induction l as [|x l IH]; intros seen Hin Hseen; [contradiction|].
  cbn [dedup_by_name]. destruct (decide (w_name x ∈ seen)) as [Hx|Hx].
  - destruct Hin as [->|Hin]; [contradiction|]. apply IH; assumption.
  - destruct (String.eqb_spec (w_name x) (w_name w)) as [E|E].
    + exists x. split; [left; reflexivity | exact E].
    + destruct Hin as [->|Hin]; [contradiction|].
      destruct (IH ({[w_name x]} ∪ seen) Hin) as (w' & Hw' & Hn).
      * rewrite elem_of_union, elem_of_singleton.
        intros [H|H]; [congruence | contradiction].
      * exists w'. split; [right; exact Hw' | exact Hn].
Qed.

Lemma dedup_first (seen : gset string) (pre post : list weapon) (w : weapon) :
  (forall x, In x pre -> w_name x <> w_name w) ->
  w_name w ∉ seen ->
  In w (dedup_by_name seen (pre ++ w :: post)).
Proof.
  revert seen. induction pre as [|x pre IH]; intros seen Hpre Hseen.
  - cbn [app dedup_by_name].
    destruct (decide (w_name w ∈ seen)); [contradiction | left; reflexivity].
  - cbn [app dedup_by_name].
    assert (Hx : w_name x <> w_name w) by (apply Hpre; left; reflexivity).
    assert (Hrest : forall y, In y pre -> w_name y <> w_name w)
      by (intros y Hy; apply Hpre; right; exact Hy).
    destruct (decide (w_name x ∈ seen)).
    + apply IH; assumption.
    + right. apply IH; [exact Hrest|].
      rewrite elem_of_union, elem_of_singleton.
      intros [H|H]; [congruence | contradiction].
Qed.

(** X5.  The candidates of the recommendation engine carry pairwise
    different names; every candidate is a weapon of the index, every name of
    the index is the name of a candidate, and of the weapons of one name the
    first one met (damage-type buckets first, then status buckets) is the
    one that is kept. *)
Theorem candidates_deduplicated (idx : weapon_index) :
  let pool := members (by_damage_type idx) ++ members (by_status idx) in
  List.NoDup (map w_name (candidates idx)) /\
  (forall w, In w (candidates idx) -> In w pool) /\
  (forall w, In w pool ->
             exists w', In w' (candidates idx) /\ w_name w' = w_name w) /\
  (forall pre w post,
     pool = pre ++ w :: post ->
     (forall x, In x pre -> w_name x <> w_name w) ->
     In w (candidates idx)).
Proof.
  intros pool. unfold candidates. fold (members (by_damage_type idx)).
  fold (members (by_status idx)). fold pool.
  split; [apply dedup_nodup|].
  split; [intros w; apply dedup_subset|].
  split.
  - intros w Hw. apply dedup_covers; [exact Hw | apply not_elem_of_empty].
  - intros pre w post -> Hpre. apply dedup_first; [exact Hpre | apply not_elem_of_empty].
Qed.

(** ** Status weights *)

Lemma tier_bounds (i : nat) : 1 <= nth i tier_scores 1 <= 10.
Proof. do 5 (destruct i as [|i]; [simpl; lia|]). simpl. destruct i; lia. Qed.

Lemma assign_weights_absent (ranked : list (string * xnum)) (i : nat)
    (acc : gmap string Z) (s : string) :
  ~ In s (map fst ranked) -> assign_weights i ranked acc !! s = acc !! s.
Proof.
  revert i acc. induction ranked as [|[s' r] ranked IH]; intros i acc H; [reflexivity|].
  cbn [assign_weights]. rewrite IH by (intros Hin; apply H; right; exact Hin).
  apply lookup_insert_ne. intros ->. apply H. left. reflexivity.
Qed.

Lemma assign_weights_at (ranked : list (string * xnum)) (i j : nat)
    (acc : gmap string Z) (s : string) (r : xnum) :
  List.NoDup (map fst ranked) ->
  nth_error ranked j = Some (s, r) ->
  assign_weights i ranked acc !! s = Some (nth (i + j) tier_scores 1).
Proof.
  revert i j acc. induction ranked as [|[s' r'] ranked IH]; intros i j acc Hnd Hj.
  - destruct j; discriminate.
  - inversion Hnd as [|x xs Hx Hxs]; subst. cbn [assign_weights].
    destruct j as [|j].
    + injection Hj as -> ->. rewrite assign_weights_absent by exact Hx.
      rewrite lookup_insert_eq, Nat.add_0_r. reflexivity.
    + cbn [nth_error] in Hj. rewrite (IH (S i) j _ Hxs Hj).
      replace (S i + j)%nat with (i + S j)%nat by lia. reflexivity.
Qed.

Lemma assign_weights_range (ranked : list (string * xnum)) (i : nat)
    (acc : gmap string Z) (s : string) (wt : Z) :
  assign_weights i ranked acc !! s = Some wt ->
  acc !! s = Some wt \/ (In s (map fst ranked) /\ 1 <= wt <= 10).
Proof.
  revert i acc. induction ranked as [|[s' r] ranked IH]; intros i acc H; [left; exact H|].
  cbn [assign_weights] in H. apply IH in H. destruct H as [H|[H1 H2]].
  - destruct (decide (s' = s)) as [->|Hne].
    + rewrite lookup_insert_eq in H. injection H as <-.
      right. split; [left; reflexivity | apply tier_bounds].
    + rewrite lookup_insert_ne in H by exact Hne. left. exact H.
  - right. split; [right; exact H1 | exact H2].
Qed.

Lemma assign_weights_present (ranked : list (string * xnum)) (i : nat)
    (acc : gmap string Z) (s : string) :
  In s (map fst ranked) -> is_Some (assign_weights i ranked acc !! s).
Proof.
  revert i acc. induction ranked as [|[s' r] ranked IH]; intros i acc H; [contradiction|].
  cbn [assign_weights].
  destruct (in_dec String.string_dec s (map fst ranked)) as [Hin|Hout].
  - apply IH. exact Hin.
  - rewrite assign_weights_absent by exact Hout.
    destruct H as [H|H]; [|contradiction]. cbn [fst] in H. subst s'.
    rewrite lookup_insert_eq. eauto.
Qed.

Lemma ranked_statuses (vulns : list string) (details : list (string * string)) :
  Permutation (map fst (rank_status_vulnerabilities vulns details)) vulns.
Proof.
  unfold rank_status_vulnerabilities. rewrite <- (stable_sort_perm _ _).
  rewrite map_map. cbn [fst]. rewrite map_id. reflexivity.
Qed.

(** X8.  When the vulnerable statuses are pairwise different, the status at
    position [i] of the ranking weighs 10, 7, 4, 2 for the positions 0 to 3
    and 1 from then on; a status that is not vulnerable has no weight. *)
Theorem status_weight_tiers (vulns : list string)
    (details : list (string * string)) (i : nat) (s : string) (r : xnum) :
  List.NoDup vulns ->
  nth_error (rank_status_vulnerabilities vulns details) i = Some (s, r) ->
  let weights := assign_weights 0 (rank_status_vulnerabilities vulns details) ∅ in
  weights !! s = Some (nth i [10; 7; 4; 2] 1) /\
  (forall s', ~ In s' vulns -> weights !! s' = None) /\
  (forall s', In s' vulns -> exists wt, weights !! s' = Some wt /\ 1 <= wt <= 10).
Proof.
  intros Hnd Hi weights.
  pose proof (ranked_statuses vulns details) as Hp.
  split.
  - unfold weights. rewrite (assign_weights_at _ 0 i ∅ s r); [reflexivity | | exact Hi].
    eapply Permutation_NoDup; [apply Permutation_sym; exact Hp | exact Hnd].
  - split.
    + intros s' Hs'. unfold weights. rewrite assign_weights_absent; [apply lookup_empty|].
      intros Hin. apply Hs'. eapply Permutation_in; [exact Hp | exact Hin].
    + intros s' Hs'.
      assert (Hin : In s' (map fst (rank_status_vulnerabilities vulns details)))
        by (eapply Permutation_in; [apply Permutation_sym; exact Hp | exact Hs']).
      destruct (assign_weights_present _ 0 ∅ s' Hin) as [wt Hwt].
      exists wt. split; [exact Hwt|].
      apply assign_weights_range in Hwt. destruct Hwt as [Hwt|[_ Hwt]]; [|exact Hwt].
      rewrite lookup_empty in Hwt. discriminate.
Qed.

(** ** Scores *)

Lemma phys_bonus_values (weakest : string) (negation : list (string * Q)) :
  phys_bonus weakest negation = 1 \/ phys_bonus weakest negation = 3.
Proof.
  unfold phys_bonus. destruct negation; [left; reflexivity|].
  destruct (String.eqb weakest "Unknown"); [left; reflexivity|].
  destruct (assoc_get weakest _); [|left; reflexivity].
  destruct (qltb _ _); [right | left]; reflexivity.
Qed.

(** The score is the sum of the physical part and of the status part. *)
Lemma score_weapon_sum (weakest : string) (vulns : list string)
    (details : list (string * string)) (negation : list (string * Q))
    (w : weapon) :
  let weights := assign_weights 0 (rank_status_vulnerabilities vulns details) ∅ in
  let bonus := phys_bonus weakest negation in
  fst (score_weapon weakest bonus weights vulns details w)
  = (if str_in weakest (weapon_dmg_types w) then bonus else 0)
    + match get_weapon_status w with
      | Some st => if str_in st vulns then default 0 (weights !! st) else 0
      | None => 0
      end.
Proof.
  intros weights bonus. unfold score_weapon.
  pose proof (ranked_statuses vulns details) as Hp.
  destruct (str_in weakest (weapon_dmg_types w));
    destruct (get_weapon_status w) as [st|]; cbn [fst snd]; try lia.
  all: destruct (str_in st vulns) eqn:Ev.
  all: try (apply str_in_In in Ev;
            assert (Hin : In st (map fst (rank_status_vulnerabilities vulns details)))
              by (eapply Permutation_in; [apply Permutation_sym; exact Hp | exact Ev]);
            destruct (assign_weights_present _ 0 ∅ st Hin) as [wt Hwt];
            fold weights in Hwt; rewrite Hwt; cbn [default from_option id fst snd];
            destruct (1 <? bonus); cbn [app fst snd]; unfold id; lia).
  all: assert (Hout : weights !! st = None)
         by (unfold weights; rewrite assign_weights_absent; [apply lookup_empty|];
             intros Hin; apply (Permutation_in _ Hp) in Hin;
             apply (proj2 (str_in_In st vulns)) in Hin; congruence).
  all: rewrite Hout; cbn [fst snd]; destruct (1 <? bonus); cbn [fst snd]; lia.
Qed.

(** X7.  The score of a weapon is the physical bonus when the weakest type
    is one of its damage types, plus the weight of its status when the boss
    is vulnerable to it, and nothing else: the extra point for a status
    match without a reason is never awarded.  The reasons are the
    "Exploits" text when the physical bonus is above 1 and counts, followed
    by the "Applies" text exactly when the status counts. *)
Theorem score_decomposition (weakest : string) (vulns : list string)
    (details : list (string * string)) (negation : list (string * Q))
    (w : weapon) :
  let weights := assign_weights 0 (rank_status_vulnerabilities vulns details) ∅ in
  let bonus := phys_bonus weakest negation in
  fst (score_weapon weakest bonus weights vulns details w)
  = (if str_in weakest (weapon_dmg_types w) then bonus else 0)
    + match get_weapon_status w with
      | Some st => if str_in st vulns then default 0 (weights !! st) else 0
      | None => 0
      end /\
  snd (score_weapon weakest bonus weights vulns details w)
  = (if str_in weakest (weapon_dmg_types w) && (1 <? bonus)
     then ["Exploits " +:+ weakest +:+ " weakness"] else [])
    ++ match get_weapon_status w with
       | Some st =>
           if str_in st vulns
           then ["Applies " +:+ st +:+ " (boss resistance: "
                   +:+ text_get st details +:+ ")"]
           else []
       | None => []
       end.
Proof.
  intros weights bonus. split; [apply score_weapon_sum|].
  unfold score_weapon.
  pose proof (ranked_statuses vulns details) as Hp.
  destruct (str_in weakest (weapon_dmg_types w));
    destruct (get_weapon_status w) as [st|]; cbn [fst snd andb app];
    try (destruct (1 <? bonus); reflexivity).
  all: destruct (str_in st vulns) eqn:Ev.
  all: try (apply str_in_In in Ev;
            assert (Hin : In st (map fst (rank_status_vulnerabilities vulns details)))
              by (eapply Permutation_in; [apply Permutation_sym; exact Hp | exact Ev]);
            destruct (assign_weights_present _ 0 ∅ st Hin) as [wt Hwt];
            fold weights in Hwt; rewrite Hwt; cbn [fst snd];
            destruct (1 <? bonus); reflexivity).
  all: assert (Hout : weights !! st = None)
         by (unfold weights; rewrite assign_weights_absent; [apply lookup_empty|];
             intros Hin; apply (Permutation_in _ Hp) in Hin;
             apply (proj2 (str_in_In st vulns)) in Hin; congruence).
  all: rewrite Hout; cbn [fst snd]; destruct (1 <? bonus); reflexivity.
Qed.

(** ** The scored list *)

(** A weapon scores above 0 exactly when it matches the boss, and never
    above 13. *)
Lemma score_positive_iff (weakest : string) (vulns : list string)
    (details : list (string * string)) (negation : list (string * Q))
    (w : weapon) :
  let weights := assign_weights 0 (rank_status_vulnerabilities vulns details) ∅ in
  let scr := score_weapon weakest (phys_bonus weakest negation) weights vulns details w in
  (0 < fst scr <-> weapon_matches weakest vulns w) /\ fst scr <= 13.
Proof.
  intros weights scr. unfold scr, weights.
  rewrite score_weapon_sum. unfold weapon_matches.
  pose proof (ranked_statuses vulns details) as Hp.
  assert (Hb := phys_bonus_values weakest negation).
  assert (Hw : forall st,
            match str_in st vulns with
            | true => 1 <= default 0 (assign_weights 0
                        (rank_status_vulnerabilities vulns details) ∅ !! st) <= 10
            | false => True
            end).
  { intros st. destruct (str_in st vulns) eqn:Ev; [|exact I].
    apply str_in_In in Ev.
    assert (Hin : In st (map fst (rank_status_vulnerabilities vulns details)))
      by (eapply Permutation_in; [apply Permutation_sym; exact Hp | exact Ev]).
    destruct (assign_weights_present _ 0 ∅ st Hin) as [wt Hwt]. rewrite Hwt.
    apply assign_weights_range in Hwt. destruct Hwt as [Hwt|[_ Hwt]].
    - rewrite lookup_empty in Hwt. discriminate.
    - exact Hwt. }
  destruct (str_in weakest (weapon_dmg_types w)) eqn:Ep;
    destruct (get_weapon_status w) as [st|] eqn:Es.
  all: try (specialize (Hw st); destruct (str_in st vulns) eqn:Ev).
  all: split; [split|]; try lia.
  all: try (intros _; left; reflexivity).
  all: try (intros _; right; exists st; split; [reflexivity | apply str_in_In; exact Ev]).
  all: intros [H|(st' & Hst' & Hin)]; try discriminate.
  all: injection Hst' as <-; apply str_in_In in Hin; congruence.
Qed.

Lemma scored_candidates_unfold (weakest : string) (vulns : list string)
    (idx : weapon_index) (details : list (string * string))
    (negation : list (string * Q)) :
  scored_candidates weakest vulns idx details negation
  = stable_sort desc (omap (score_entry weakest vulns details negation) (candidates idx)).
Proof. reflexivity. Qed.

Lemma score_entry_spec (weakest : string) (vulns : list string)
    (details : list (string * string)) (negation : list (string * Q))
    (w : weapon) (s : scored_weapon) :
  score_entry weakest vulns details negation w = Some s ->
  sw s = w /\ 1 <= score s <= 13 /\ weapon_matches weakest vulns w.
Proof.
  unfold score_entry. cbv zeta.
  destruct (score_positive_iff weakest vulns details negation w) as [Hm Hb].
  cbv zeta in Hm, Hb.
  destruct (0 <? _) eqn:E; [|discriminate]. intros [= <-].
  apply Z.ltb_lt in E. cbn [sw score mk_scored].
  split; [reflexivity|]. split; [lia | apply Hm; exact E].
Qed.

Lemma score_entry_matches (weakest : string) (vulns : list string)
    (details : list (string * string)) (negation : list (string * Q))
    (w : weapon) :
  weapon_matches weakest vulns w ->
  exists s, score_entry weakest vulns details negation w = Some s.
Proof.
  intros Hw. unfold score_entry. cbv zeta.
  destruct (score_positive_iff weakest vulns details negation w) as [Hm _].
  cbv zeta in Hm. apply Hm in Hw. apply Z.ltb_lt in Hw. rewrite Hw. eauto.
Qed.

Lemma scored_sorted (weakest : string) (vulns : list string)
    (idx : weapon_index) (details : list (string * string))
    (negation : list (string * Q)) :
  StronglySorted score_ge (scored_candidates weakest vulns idx details negation).
Proof.
  rewrite scored_candidates_unfold.
  apply (stable_sort_sorted desc score_ge).
  - exact score_ge_trans.
  - exact desc_score_ge.
  - exact not_desc_score_ge.
Qed.

Lemma scored_names_nodup (weakest : string) (vulns : list string)
    (idx : weapon_index) (details : list (string * string))
    (negation : list (string * Q)) :
  List.NoDup (map (fun s => w_name (sw s))
                (scored_candidates weakest vulns idx details negation)).
Proof.
  rewrite scored_candidates_unfold.
  set (f := score_entry weakest vulns details negation).
  eapply Permutation_NoDup;
    [apply Permutation_map; apply (stable_sort_perm desc (omap f (candidates idx)))|].
  assert (Hnd : List.NoDup (map w_name (candidates idx)))
    by (unfold candidates; apply dedup_nodup).
  revert Hnd. generalize (candidates idx). intros l.
  induction l as [|w l IH]; intros Hnd; [constructor|].
  inversion Hnd as [|x xs Hx Hxs]; subst.
  change (omap f (w :: l))
    with (match f w with Some y => y :: omap f l | None => omap f l end).
  destruct (f w) as [s|] eqn:E; [|apply IH; exact Hxs].
  cbn [map]. constructor; [|apply IH; exact Hxs].
  apply score_entry_spec in E. destruct E as [E _]. rewrite E.
  intros Hin. apply Hx. apply in_map_iff in Hin.
  destruct Hin as (s' & Hn & Hs'). apply list_elem_of_In, list_elem_of_omap in Hs'.
  destruct Hs' as (w' & Hw' & Hfw'). apply score_entry_spec in Hfw'.
  destruct Hfw' as [Hsw _].
  apply in_map_iff. exists w'. split; [congruence | apply list_elem_of_In; exact Hw'].
Qed.

(** X6.  The scored list is in descending order of score; every score is
    between 1 and 13; no two entries carry the same name; and a weapon is in
    the list exactly when it is a candidate that matches the boss by its
    damage type or by its status. *)
Theorem scored_list_invariants (weakest : string) (vulns : list string)
    (idx : weapon_index) (details : list (string * string))
    (negation : list (string * Q)) :
  let scored := scored_candidates weakest vulns idx details negation in
  StronglySorted score_ge scored /\
  Forall (fun s => 1 <= score s <= 13) scored /\
  List.NoDup (map (fun s => w_name (sw s)) scored) /\
  (forall w, (exists s, In s scored /\ sw s = w) <->
             In w (candidates idx) /\ weapon_matches weakest vulns w).
Proof.
  intros scored. unfold scored.
  split; [apply scored_sorted|].
  split; [|split; [apply scored_names_nodup|]].
  - rewrite scored_candidates_unfold.
    set (f := score_entry weakest vulns details negation).
    apply (Permutation_Forall (stable_sort_perm desc (omap f (candidates idx)))).
    apply List.Forall_forall. intros s Hs.
    apply list_elem_of_In, list_elem_of_omap in Hs. destruct Hs as (w & _ & Hw).
    apply score_entry_spec in Hw. tauto.
  - rewrite scored_candidates_unfold.
    set (f := score_entry weakest vulns details negation).
    pose proof (stable_sort_perm desc (omap f (candidates idx))) as Hp.
    intros w. split.
    + intros (s & Hs & <-).
      apply (Permutation_in _ (Permutation_sym Hp)) in Hs.
      apply list_elem_of_In, list_elem_of_omap in Hs. destruct Hs as (w & Hw & Hfw).
      apply score_entry_spec in Hfw. destruct Hfw as (-> & _ & Hm).
      split; [apply list_elem_of_In; exact Hw | exact Hm].
    + intros [Hw Hm].
      destruct (score_entry_matches weakest vulns details negation w Hm) as [s Hs].
      exists s. split; [|apply (score_entry_spec _ _ _ _ w s Hs)].
      apply (Permutation_in _ Hp). apply list_elem_of_In, list_elem_of_omap.
      exists w. split; [apply list_elem_of_In; exact Hw | exact Hs].
Qed.

(** ** Where recommendations come from *)

Lemma recs_append_In (build : string) (e : rec_entry) (recs : recs_t)
    (k : string) (l : list rec_entry) :
  In (k, l) (recs_append build e recs) ->
  In (k, l) recs \/ (k = build /\ exists l0, l = l0 ++ [e] /\ In (k, l0) recs).
Proof.
  induction recs as [|[k' l'] recs IH]; [intros []|].
  cbn [recs_append]. destruct (String.eqb_spec k' build) as [E|E].
  - intros [H|H].
    + injection H as <- <-. right. split; [exact E|].
      exists l'. split; [reflexivity | left; reflexivity].
    + left. right. exact H.
  - intros [H|H].
    + left. left. exact H.
    + apply IH in H. destruct H as [H|(Hk & l0 & Hl & H0)].
      * left. right. exact H.
      * right. split; [exact Hk|]. exists l0. split; [exact Hl | right; exact H0].
Qed.

Lemma recs_append_qualified (scored : list scored_weapon) (build : string)
    (s : scored_weapon) (recs : recs_t) :
  recs_qualified scored recs -> qualifies scored build s ->
  recs_qualified scored (recs_append build (mk_entry s) recs).
Proof.
  intros Hr Hq k l e Hin He. apply recs_append_In in Hin.
  destruct Hin as [Hin|(-> & l0 & -> & Hin)].
  - exact (Hr k l e Hin He).
  - apply in_app_iff in He. destruct He as [He|[<-|[]]].
    + exact (Hr build l0 e Hin He).
    + exists s. split; [reflexivity | exact Hq].
Qed.

Lemma fold_left_In_invariant {A B : Type} (P : B -> Prop) (f : B -> A -> B)
    (l : list A) (init : B) :
  (forall acc x, In x l -> P acc -> P (f acc x)) -> P init -> P (fold_left f l init).
Proof.
  revert init. induction l as [|x l IH]; intros init Hf Hi; [exact Hi|].
  cbn [fold_left]. apply IH.
  - intros acc y Hy. apply Hf. right. exact Hy.
  - apply Hf; [left; reflexivity | exact Hi].
Qed.

Lemma firstn_In {A : Type} (n : nat) (l : list A) (x : A) :
  In x (firstn n l) -> In x l.
Proof.
  revert l. induction n as [|n IH]; intros l; [intros []|].
  destruct l as [|y l]; [intros []|]. cbn [firstn].
  intros [H|H]; [left; exact H | right; apply IH; exact H].
Qed.

(** X9.  Every entry of a recommendation list was made from a weapon of the
    scored list, and that weapon qualifies for the archetype: its primary
    scaling is the stat of the archetype, or it is among the ten best
    scored weapons and its scaling grade for that stat is D or better. *)
Theorem recommendations_qualify (weakest : string) (vulns : list string)
    (idx : weapon_index) (details : list (string * string))
    (negation : list (string * Q)) :
  let scored := scored_candidates weakest vulns idx details negation in
  forall build entries e,
    In (build, entries) (recommend_weapons weakest vulns idx details negation) ->
    In e entries ->
    exists s, e = mk_entry s /\ qualifies scored build s.
Proof.
  intros scored. unfold recommend_weapons. fold scored. unfold distribute.
  assert (H1 : recs_qualified scored (fold_left distribute_step scored recs_init)).
  { apply fold_left_In_invariant.
    - intros acc s Hs Hacc. unfold distribute_step.
      destruct (assoc_get (w_primary_scaling (sw s)) scaling_to_build) as [build|] eqn:E;
        [|exact Hacc].
      destruct (length (recs_get build acc) <? 2)%nat; [|exact Hacc].
      apply recs_append_qualified; [exact Hacc|].
      exists (w_primary_scaling (sw s)).
      split; [apply assoc_get_In; exact E|]. split; [exact Hs | left; reflexivity].
    - intros build entries e Hin He. unfold recs_init, builds in Hin. simpl in Hin.
      destruct Hin as [H|[H|[H|[H|[H|[]]]]]]; injection H as <- <-; contradiction. }
  assert (H2 : recs_qualified scored
                 (fold_left (fallback_build scored) scaling_to_build
                    (fold_left distribute_step scored recs_init))).
  { apply fold_left_In_invariant; [|exact H1].
    intros acc [stat build] Hsb Hacc. unfold fallback_build.
    destruct (recs_get build acc); [|exact Hacc].
    destruct scored as [|s0 rest] eqn:Es; [exact Hacc|]. rewrite <- Es in *.
    apply fold_left_In_invariant; [|exact Hacc].
    intros acc' s Hs Hacc'. unfold fallback_step.
    destruct ((2 <=? grade_order _) && (length (recs_get build acc') <? 2)%nat) eqn:E;
      [|exact Hacc'].
    apply andb_true_iff in E. destruct E as [E _]. apply Z.leb_le in E.
    apply recs_append_qualified; [exact Hacc'|].
    exists stat. split; [exact Hsb|].
    split; [apply (firstn_In 10); exact Hs|]. right. split; [exact Hs | exact E]. }
  intros build entries e Hin He. apply filter_In in Hin. destruct Hin as [Hin _].
  exact (H2 build entries e Hin He).
Qed.

(** ** Recommendations follow the scored list *)

Lemma fold_left_prefix_invariant {A B : Type} (I : list A -> B -> Prop)
    (f : B -> A -> B) (l : list A) (init : B) :
  I [] init ->
  (forall done x rest acc, l = done ++ x :: rest -> I done acc -> I (done ++ [x]) (f acc x)) ->
  I l (fold_left f l init).
Proof.
  intros Hi Hstep.
  assert (H : forall rest done acc,
            l = done ++ rest -> I done acc -> I (done ++ rest) (fold_left f rest acc)).
  { induction rest as [|x rest IH]; intros done acc Hl Hd.
    - rewrite app_nil_r. exact Hd.
    - cbn [fold_left].
      replace (done ++ x :: rest) with ((done ++ [x]) ++ rest)
        by (rewrite <- app_assoc; reflexivity).
      apply IH.
      + rewrite <- app_assoc. exact Hl.
      + apply (Hstep done x rest); assumption. }
  apply (H l [] init); [reflexivity | exact Hi].
Qed.

Lemma In_assoc_get {A : Type} (k : string) (v : A) (d : list (string * A)) :
  List.NoDup (map fst d) -> In (k, v) d -> assoc_get k d = Some v.
Proof.
  induction d as [|[k0 v0] d IH]; [intros _ []|].
  cbn [map fst]. intros Hnd Hin. inversion Hnd as [|? ? Hk0 Hd]; subst.
  cbn [assoc_get]. destruct Hin as [Hin|Hin].
  - injection Hin as -> ->. rewrite String.eqb_refl. reflexivity.
  - destruct (String.eqb_spec k0 k) as [->|_]; [|apply IH; assumption].
    exfalso. apply Hk0. apply in_map_iff. exists (k, v). split; [reflexivity | exact Hin].
Qed.

Lemma builds_nodup : List.NoDup builds.
Proof.
  unfold builds, scaling_to_build. cbn [map snd].
  repeat constructor; cbn [In]; intuition discriminate.
Qed.

Lemma sublist_snoc {A : Type} (ss done : list A) (x : A) :
  sublist ss done -> sublist (ss ++ [x]) (done ++ [x]).
Proof. intros H. apply sublist_app; [exact H | reflexivity]. Qed.

Lemma sublist_grow {A : Type} (ss done : list A) (x : A) :
  sublist ss done -> sublist ss (done ++ [x]).
Proof. intros H. apply sublist_inserts_r. exact H. Qed.

Lemma distribute_ordered (scored : list scored_weapon) :
  map fst (fold_left distribute_step scored recs_init) = builds /\
  recs_ordered scored (fold_left distribute_step scored recs_init).
Proof.
  apply (fold_left_prefix_invariant
           (fun done acc => map fst acc = builds /\ recs_ordered done acc)).
  - split; [reflexivity|]. intros build entries Hin.
    exists []. split; [apply sublist_nil_l|].
    unfold recs_init in Hin. apply in_map_iff in Hin.
    destruct Hin as (b & Hb & _). injection Hb as _ <-. reflexivity.
  - intros done x rest acc _ [Hk Ho]. unfold distribute_step.
    assert (Hkeep : recs_ordered (done ++ [x]) acc).
    { intros build entries Hin. destruct (Ho build entries Hin) as (ss & Hs & He).
      exists ss. split; [apply sublist_grow; exact Hs | exact He]. }
    destruct (assoc_get (w_primary_scaling (sw x)) scaling_to_build) as [build|];
      [|split; assumption].
    destruct (length (recs_get build acc) <? 2)%nat; [|split; assumption].
    split; [rewrite recs_append_keys; exact Hk|].
    intros k l Hin. apply recs_append_In in Hin.
    destruct Hin as [Hin|(-> & l0 & -> & Hin)]; [exact (Hkeep k l Hin)|].
    destruct (Ho build l0 Hin) as (ss & Hs & ->).
    exists (ss ++ [x]). split; [apply sublist_snoc; exact Hs|].
    rewrite map_app. reflexivity.
Qed.

Lemma fallback_ordered (scored : list scored_weapon) (recs : recs_t)
    (sb : string * string) :
  map fst recs = builds /\ recs_ordered scored recs ->
  map fst (fallback_build scored recs sb) = builds /\
  recs_ordered scored (fallback_build scored recs sb).
Proof.
  intros [Hk Ho]. destruct sb as [stat build]. unfold fallback_build.
  destruct (recs_get build recs) as [|e0 es] eqn:Eg; [|split; assumption].
  destruct scored as [|s0 rest0] eqn:Es; [split; assumption|]. rewrite <- Es in *.
  clear Es s0 rest0.
  assert (H : map fst (fold_left (fallback_step stat build) (firstn 10 scored) recs)
              = builds /\
              forall k l,
                In (k, l) (fold_left (fallback_step stat build) (firstn 10 scored) recs) ->
                exists ss, l = map mk_entry ss /\ sublist ss scored /\
                           (k = build -> sublist ss (firstn 10 scored))).
  { apply (fold_left_prefix_invariant
             (fun done acc =>
                map fst acc = builds /\
                forall k l, In (k, l) acc ->
                            exists ss, l = map mk_entry ss /\ sublist ss scored /\
                                       (k = build -> sublist ss done))).
    - split; [exact Hk|]. intros k l Hin.
      destruct (Ho k l Hin) as (ss & Hs & He). exists ss.
      split; [exact He|]. split; [exact Hs|]. intros ->.
      assert (Hl : l = []).
      { unfold recs_get in Eg. rewrite (In_assoc_get build l recs) in Eg;
          [exact Eg | rewrite Hk; exact builds_nodup | exact Hin]. }
      rewrite Hl in He. destruct ss; [apply sublist_nil_l | discriminate He].
    - intros done x rest acc Hpre [Hka Hacc]. unfold fallback_step.
      assert (Hkeep : forall k l, In (k, l) acc ->
                exists ss, l = map mk_entry ss /\ sublist ss scored /\
                           (k = build -> sublist ss (done ++ [x]))).
      { intros k l Hin. destruct (Hacc k l Hin) as (ss & He & Hs & Hd).
        exists ss. split; [exact He|]. split; [exact Hs|].
        intros Hb. apply sublist_grow. apply Hd. exact Hb. }
      destruct ((2 <=? grade_order _) && (length (recs_get build acc) <? 2)%nat);
        [|split; assumption].
      split; [rewrite recs_append_keys; exact Hka|].
      intros k l Hin. apply recs_append_In in Hin.
      destruct Hin as [Hin|(-> & l0 & -> & Hin)]; [exact (Hkeep k l Hin)|].
      destruct (Hacc build l0 Hin) as (ss & -> & _ & Hd).
      specialize (Hd eq_refl). exists (ss ++ [x]).
      split; [rewrite map_app; reflexivity|].
      assert (Hsn : sublist (ss ++ [x]) (done ++ [x])) by (apply sublist_snoc; exact Hd).
      split; [|intros _; exact Hsn].
      transitivity (firstn 10 scored); [|apply sublist_take].
      rewrite Hpre. transitivity (done ++ [x]); [exact Hsn|].
      replace (done ++ x :: rest) with ((done ++ [x]) ++ rest)
        by (rewrite <- app_assoc; reflexivity).
      apply sublist_inserts_r. reflexivity. }
  destruct H as [Hk' H]. split; [exact Hk'|].
  intros k l Hin. destruct (H k l Hin) as (ss & He & Hs & _).
  exists ss. split; assumption.
Qed.

Lemma sublist_In {A : Type} (l1 l2 : list A) (x : A) :
  sublist l1 l2 -> In x l1 -> In x l2.
Proof.
  intros Hs Hin. apply list_elem_of_In. eapply sublist_subseteq; [exact Hs|].
  apply list_elem_of_In. exact Hin.
Qed.

Lemma sublist_sorted {A : Type} (R : A -> A -> Prop) (l1 l2 : list A) :
  sublist l1 l2 -> StronglySorted R l2 -> StronglySorted R l1.
Proof.
  induction 1 as [|x l1 l2 Hs IH|x l1 l2 Hs IH]; intros Hsorted.
  - constructor.
  - inversion Hsorted as [|? ? Hl2 Hx]; subst. constructor; [apply IH; exact Hl2|].
    apply List.Forall_forall. intros y Hy.
    rewrite List.Forall_forall in Hx. apply Hx. eapply sublist_In; eassumption.
  - inversion Hsorted; subst. apply IH. assumption.
Qed.

Lemma sublist_map_nodup {A B : Type} (f : A -> B) (l1 l2 : list A) :
  sublist l1 l2 -> List.NoDup (map f l2) -> List.NoDup (map f l1).
Proof.
  induction 1 as [|x l1 l2 Hs IH|x l1 l2 Hs IH]; cbn [map]; intros Hnd.
  - constructor.
  - inversion Hnd as [|? ? Hx Hl2]; subst. constructor; [|apply IH; exact Hl2].
    intros Hin. apply Hx. apply in_map_iff in Hin. destruct Hin as (y & Hy & Hin).
    apply in_map_iff. exists y. split; [exact Hy | eapply sublist_In; eassumption].
  - inversion Hnd; subst. apply IH. assumption.
Qed.

(** X19.  The entries of every archetype are made, in order, of weapons of
    the scored list: an archetype lists its weapons by descending score and
    never the same name twice. *)
Theorem recommendations_in_score_order (weakest : string) (vulns : list string)
    (idx : weapon_index) (details : list (string * string))
    (negation : list (string * Q)) (build : string) (entries : list rec_entry) :
  In (build, entries) (recommend_weapons weakest vulns idx details negation) ->
  exists ss,
    sublist ss (scored_candidates weakest vulns idx details negation) /\
    entries = map mk_entry ss /\
    StronglySorted score_ge ss /\
    List.NoDup (map r_name entries).
Proof.
  unfold recommend_weapons, distribute.
  set (scored := scored_candidates weakest vulns idx details negation).
  intros Hin. apply filter_In in Hin. destruct Hin as [Hin _].
  assert (H : map fst (fold_left (fallback_build scored) scaling_to_build
                         (fold_left distribute_step scored recs_init)) = builds /\
              recs_ordered scored
                (fold_left (fallback_build scored) scaling_to_build
                   (fold_left distribute_step scored recs_init))).
  { apply (fold_left_In_invariant
             (fun acc => map fst acc = builds /\ recs_ordered scored acc)).
    - intros acc sb _ Hacc. apply fallback_ordered. exact Hacc.
    - apply distribute_ordered. }
  destruct H as [_ H]. destruct (H build entries Hin) as (ss & Hs & ->).
  exists ss. split; [exact Hs|]. split; [reflexivity|].
  split.
  - eapply sublist_sorted; [exact Hs | apply scored_sorted].
  - rewrite map_map. cbn [r_name mk_entry].
    apply (sublist_map_nodup (fun s => w_name (sw s)) ss scored Hs).
    apply scored_names_nodup.
Qed.

Lemma recommendations_in_score_order_witness :
  exists ss,
    sublist ss
      (scored_candidates (weakest_physical rot_stats) (status_vulns sample_repr rot_stats)
         (build_weapon_index [rot_greatsword]) (status_details sample_repr rot_stats)
         (valid_phys rot_stats)) /\
    [mk_entry {| sw := rot_greatsword; score := 13; reason := rot_reason |}]
    = map mk_entry ss /\
    StronglySorted score_ge ss /\
    List.NoDup (map r_name
                  [mk_entry {| sw := rot_greatsword; score := 13; reason := rot_reason |}]).
Proof.
  apply (recommendations_in_score_order (weakest_physical rot_stats)
           (status_vulns sample_repr rot_stats) (build_weapon_index [rot_greatsword])
           (status_details sample_repr rot_stats) (valid_phys rot_stats)
           "strength").
  vm_compute. left. reflexivity.
Defined.

(** ** The weapon enricher, row by row *)





(** ** What a resolved lookup returns *)

Lemma fold_insert_values {V : Type} (key : gmap string cell -> string)
    (val : gmap string cell -> V) (rows : list (gmap string cell))
    (acc : gmap string V) (k : string) (v : V) :
  fold_left (fun m x => <[key x := val x]> m) rows acc !! k = Some v ->
  acc !! k = Some v \/ exists r, In r rows /\ v = val r.
Proof.
  revert acc. induction rows as [|x rows IH]; intros acc H; [left; exact H|].
  cbn [fold_left] in H. apply IH in H. destruct H as [H|(r & Hr & Hv)].
  - destruct (decide (key x = k)) as [<-|Hne].
    + rewrite lookup_insert_eq in H. injection H as <-.
      right. exists x. split; [left; reflexivity | reflexivity].
    + rewrite lookup_insert_ne in H by exact Hne. left. exact H.
  - right. exists r. split; [right; exact Hr | exact Hv].
Qed.

Lemma build_lookup_values (repr : literal -> string) {V : Type} (name_col : string)
    (f : gmap string cell -> V) (t : option (list (gmap string cell)))
    (k : string) (v : V) :
  build_lookup repr name_col f t !! k = Some v ->
  exists rows r, t = Some rows /\ In r rows /\ v = f r.
Proof.
  unfold build_lookup. destruct t as [rows|].
  - intros H. apply fold_insert_values in H. destruct H as [H|(r & Hr & Hv)].
    + rewrite lookup_empty in H. discriminate.
    + exists rows, r. auto.
  - rewrite lookup_empty. discriminate.
Qed.

Lemma fuzzy_find_value (ratio : string -> string -> Q) (repr : literal -> string)
    {V : Type} (d : gmap string V) (name : string) (v : V) :
  fuzzy_find ratio repr d name = Some v -> exists k, d !! k = Some v.
Proof.
  unfold fuzzy_find, fuzzy_get.
  destruct (d !! norm repr (Some (CStr name))) as [v'|] eqn:E.
  - cbn [snd]. intros [= <-]. eauto.
  - destruct (get_close_matches_spec ratio (norm repr (Some (CStr name))) (keys d)
                FUZZY_CUTOFF) as (ms & Hg & Hms & _); [discriminate | discriminate |].
    rewrite Hg. cbn [snd bind].
    destruct Hms as [->|(m & -> & _ & _)]; [discriminate|].
    intros H. eauto.
Qed.

(** X11.  The scaling table of an emitted weapon is empty or the five grades
    (Str, Dex, Int, Fai, Arc) of one row of the stats table, never a mixture,
    and its primary scaling is the one computed from that table; the same
    holds for its base damage.  Without a stats table every weapon has an
    empty scaling table and the primary scaling "None". *)
Theorem weapon_scaling_provenance (ratio : string -> string -> Q)
    (literal_eval : string -> option literal) (repr : literal -> string)
    (data : dataset) (lore_lib : gmap string string) (ws : list weapon) :
  enrich_weapons ratio literal_eval repr data lore_lib = Ok ws ->
  Forall (fun w =>
            w_primary_scaling w = primary_scaling (w_scaling w) /\
            (w_scaling w = [] \/
             exists rows r, weapons_stats data = Some rows /\ In r rows /\
                            w_scaling w = scaling_of_row repr r) /\
            (w_base_damage w = [] \/
             exists rows r, weapons_stats data = Some rows /\ In r rows /\
                            w_base_damage w = dmg_of_row repr r)) ws /\
  (weapons_stats data = None ->
   Forall (fun w => w_scaling w = [] /\ w_primary_scaling w = "None") ws).
Proof.
  unfold enrich_weapons. destruct (weapons data) as [df|]; [|intros [= <-]; split; [constructor | intros _; constructor]].
  intros H. apply map_result_ok in H.
  assert (Hw : forall w,
            (exists r, In r df /\
               enrich_weapon ratio literal_eval repr lore_lib
                 (build_lookup repr "Name" (scaling_of_row repr) (weapons_stats data))
                 (build_lookup repr "Name" (dmg_of_row repr) (weapons_stats data)) r
               = Ok w) ->
            w_primary_scaling w = primary_scaling (w_scaling w) /\
            (w_scaling w = [] \/
             exists rows r, weapons_stats data = Some rows /\ In r rows /\
                            w_scaling w = scaling_of_row repr r) /\
            (w_base_damage w = [] \/
             exists rows r, weapons_stats data = Some rows /\ In r rows /\
                            w_base_damage w = dmg_of_row repr r)).
  { intros w (r & _ & Hr). unfold enrich_weapon in Hr.
    destruct (py_int (r !! "dlc") 0) as [z|e]; cbn [bind] in Hr; [|discriminate].
    injection Hr as <-. cbn [w_primary_scaling w_scaling w_base_damage].
    split; [reflexivity|]. split.
    - destruct (fuzzy_find ratio repr _ _) as [v|] eqn:E at 1 2; [|left; reflexivity].
      right. apply fuzzy_find_value in E. destruct E as [k Hk].
      apply build_lookup_values in Hk. exact Hk.
    - match goal with |- context [fuzzy_find ratio repr (build_lookup repr "Name" (dmg_of_row repr) ?t) ?n] =>
        destruct (fuzzy_find ratio repr (build_lookup repr "Name" (dmg_of_row repr) t) n)
          as [v|] eqn:E end; [|left; reflexivity].
      right. apply fuzzy_find_value in E. destruct E as [k Hk].
      apply build_lookup_values in Hk. exact Hk. }
  split.
  - eapply Forall_impl; [exact H|]. exact Hw.
  - intros Hnone. eapply Forall_impl; [exact H|]. intros w Hex.
    destruct (Hw w Hex) as (Hp & [Hs|(rows & r & Hrows & _)] & _).
    + rewrite Hp, Hs. split; reflexivity.
    + congruence.
Qed.

Lemma weapon_scaling_provenance_witness :
  exists ws,
    enrich_weapons sample_ratio sample_literal_eval sample_repr club_data ∅ = Ok ws /\
    map w_scaling ws = [scaling_of_row sample_repr club_stats_row] /\
    Forall (fun w => w_primary_scaling w = primary_scaling (w_scaling w)) ws.
Proof.
  eexists. split; [vm_compute; reflexivity|].
  split; [vm_compute; reflexivity|].
  eapply Forall_impl.
  - apply (proj1 (weapon_scaling_provenance sample_ratio sample_literal_eval sample_repr
                    club_data ∅ _ ltac:(vm_compute; reflexivity))).
  - intros w H. exact (proj1 H).
Defined.

(** ** The boss enricher *)






(** ** The location cross-reference index *)

Lemma names_append_get (k k' x : string) (d : name_lists) :
  assoc_get k (names_append k' x d)
  = if String.eqb k' k
    then Some (match assoc_get k d with Some l => l | None => [] end ++ [x])
    else assoc_get k d.
Proof.
  induction d as [|[k0 l] d IH].
  - cbn [names_append assoc_get]. destruct (String.eqb k' k); reflexivity.
  - cbn [names_append assoc_get].
    destruct (String.eqb_spec k0 k') as [->|Hne].
    + cbn [assoc_get]. destruct (String.eqb k' k); reflexivity.
    + cbn [assoc_get]. rewrite IH.
      destruct (String.eqb_spec k0 k) as [->|Hne'].
      * destruct (String.eqb_spec k' k) as [->|_]; [contradiction | reflexivity].
      * reflexivity.
Qed.

Lemma names_append_keys (k k' x : string) (d : name_lists) :
  In k (map fst (names_append k' x d)) <-> k = k' \/ In k (map fst d).
Proof.
  induction d as [|[k0 l] d IH].
  - cbn [names_append map fst In]. intuition congruence.
  - cbn [names_append]. destruct (String.eqb_spec k0 k') as [->|Hne].
    + cbn [map fst In]. intuition congruence.
    + cbn [map fst In]. rewrite IH. tauto.
Qed.

Lemma names_append_nodup (k x : string) (d : name_lists) :
  List.NoDup (map fst d) -> List.NoDup (map fst (names_append k x d)).
Proof.
  induction d as [|[k0 l] d IH]; intros Hnd.
  - cbn [names_append map fst]. constructor; [intros [] | constructor].
  - cbn [names_append]. inversion Hnd as [|? ? Hk0 Hd]; subst.
    destruct (String.eqb_spec k0 k) as [->|Hne].
    + cbn [map fst]. constructor; assumption.
    + cbn [map fst]. constructor; [|apply IH; exact Hd].
      rewrite names_append_keys. intros [E|E]; [congruence | contradiction].
Qed.

Lemma names_append_nonempty (k x : string) (d : name_lists) :
  Forall (fun kv => snd kv <> []) d ->
  Forall (fun kv => snd kv <> []) (names_append k x d).
Proof.
  induction d as [|[k0 l] d IH]; intros Hd.
  - cbn [names_append]. constructor; [discriminate | constructor].
  - cbn [names_append]. inversion Hd as [|? ? H0 Hd']; subst.
    destruct (String.eqb k0 k).
    + constructor; [|exact Hd']. cbn [snd]. destruct l; discriminate.
    + constructor; [exact H0 | apply IH; exact Hd'].
Qed.

Lemma add_listing_get (repr : literal -> string) (loc_name : string)
    (listing : list string) (d : name_lists) (k : string) :
  names_of k (add_listing repr loc_name listing d)
  = names_of k d
    ++ map (fun _ => loc_name)
         (List.filter (fun e => String.eqb (norm repr (Some (CStr e))) k) listing).
Proof.
  unfold add_listing. revert d. induction listing as [|e es IH]; intros d.
  - cbn [fold_left List.filter map]. rewrite app_nil_r. reflexivity.
  - cbn [fold_left List.filter]. rewrite IH. unfold names_of at 1.
    rewrite names_append_get. fold (names_of k d).
    destruct (String.eqb (norm repr (Some (CStr e))) k).
    + cbn [map]. rewrite <- app_assoc. reflexivity.
    + reflexivity.
Qed.

Lemma add_listing_shape (repr : literal -> string) (loc_name : string)
    (listing : list string) (d : name_lists) :
  List.NoDup (map fst d) /\ Forall (fun kv => snd kv <> []) d ->
  List.NoDup (map fst (add_listing repr loc_name listing d)) /\
  Forall (fun kv => snd kv <> []) (add_listing repr loc_name listing d).
Proof.
  unfold add_listing. revert d. induction listing as [|e es IH]; intros d [Hn Hf].
  - split; assumption.
  - cbn [fold_left]. apply IH. split.
    + apply names_append_nodup. exact Hn.
    + apply names_append_nonempty. exact Hf.
Qed.

(** What holds of each of the three dictionaries, stated for a projection
    of the index and the listing it is filled from. *)
Lemma location_index_field (repr : literal -> string)
    (proj : location_index -> name_lists) (field : location -> list string) :
  (forall idx loc,
     proj (index_location repr idx loc)
     = add_listing repr (l_name loc) (field loc) (proj idx)) ->
  forall locs idx k,
    names_of k (proj (fold_left (index_location repr) locs idx))
    = names_of k (proj idx) ++ listed_under repr field k locs /\
    (List.NoDup (map fst (proj idx)) /\ Forall (fun kv => snd kv <> []) (proj idx) ->
     List.NoDup (map fst (proj (fold_left (index_location repr) locs idx))) /\
     Forall (fun kv => snd kv <> []) (proj (fold_left (index_location repr) locs idx))).
Proof.
  intros Hproj locs. induction locs as [|loc locs IH]; intros idx k.
  - cbn [fold_left listed_under flat_map]. rewrite app_nil_r.
    split; [reflexivity | tauto].
  - cbn [fold_left]. destruct (IH (index_location repr idx loc) k) as [IH1 IH2].
    split.
    + rewrite IH1, Hproj, add_listing_get. unfold listed_under. cbn [flat_map].
      rewrite <- app_assoc. reflexivity.
    + intros Hs. apply IH2. rewrite Hproj. apply add_listing_shape. exact Hs.
Qed.

Lemma assoc_get_key {A : Type} (k : string) (d : list (string * A)) :
  In k (map fst d) <-> exists v, assoc_get k d = Some v.
Proof.
  induction d as [|[k0 v0] d IH].
  - cbn [map In assoc_get]. split; [intros [] | intros [v Hv]; discriminate].
  - cbn [map fst In assoc_get]. destruct (String.eqb_spec k0 k) as [->|Hne].
    + split; [eauto | left; reflexivity].
    + rewrite <- IH. split; [intros [E|E]; [congruence | exact E] | right; assumption].
Qed.

(** X12.  The location index inverts the listings of the locations: under a
    normalised boss name it holds the names of the locations that list such
    a boss, one per listed occurrence and in the order of the locations,
    and that name is a key exactly when some location lists such a boss;
    the keys are pairwise different.  The same holds for the NPCs and the
    creatures. *)
Theorem location_index_inverts (repr : literal -> string)
    (locations : list location) (k : string) :
  let idx := build_location_index repr locations in
  let inverts (d : name_lists) (field : location -> list string) :=
    names_of k d = listed_under repr field k locations /\
    (In k (map fst d) <->
     exists loc e, In loc locations /\ In e (field loc) /\
                   norm repr (Some (CStr e)) = k) /\
    List.NoDup (map fst d) in
  inverts (boss_to_locations idx) l_bosses /\
  inverts (npc_to_locations idx) l_npcs /\
  inverts (creature_to_locations idx) l_creatures.
Proof.
  cbv zeta.
  assert (H : forall proj field,
            (forall idx loc,
               proj (index_location repr idx loc)
               = add_listing repr (l_name loc) (field loc) (proj idx)) ->
            proj {| boss_to_locations := []; npc_to_locations := [];
                    creature_to_locations := [] |} = [] ->
            names_of k (proj (build_location_index repr locations))
            = listed_under repr field k locations /\
            (In k (map fst (proj (build_location_index repr locations))) <->
             exists loc e, In loc locations /\ In e (field loc) /\
                           norm repr (Some (CStr e)) = k) /\
            List.NoDup (map fst (proj (build_location_index repr locations)))).
  { intros proj field Hproj Hinit. unfold build_location_index.
    destruct (location_index_field repr proj field Hproj locations
                {| boss_to_locations := []; npc_to_locations := [];
                   creature_to_locations := [] |} k) as [Hget Hshape].
    rewrite Hinit in Hget, Hshape. cbn [names_of assoc_get app] in Hget.
    destruct Hshape as [Hnd Hne]; [split; constructor|].
    split; [exact Hget|]. split; [|exact Hnd].
    set (d := proj (fold_left (index_location repr) locations _)) in *.
    assert (Hkey : In k (map fst d) <-> names_of k d <> []).
    { rewrite assoc_get_key. unfold names_of. split.
      - intros [v Hv]. rewrite Hv. apply assoc_get_In in Hv.
        rewrite List.Forall_forall in Hne. exact (Hne _ Hv).
      - destruct (assoc_get k d) as [v|]; [eauto | intros Hc; contradiction]. }
    rewrite Hkey, Hget. unfold listed_under. split.
    - intros Hne'. destruct (flat_map _ locations) as [|n ns] eqn:E; [contradiction|].
      assert (Hin : In n (flat_map
                (fun loc => map (fun _ => l_name loc)
                   (List.filter (fun e => String.eqb (norm repr (Some (CStr e))) k)
                      (field loc))) locations)) by (rewrite E; left; reflexivity).
      apply in_flat_map in Hin. destruct Hin as (loc & Hloc & Hin).
      apply in_map_iff in Hin. destruct Hin as (e & _ & He).
      apply filter_In in He. destruct He as [He Hk]. apply String.eqb_eq in Hk.
      exists loc, e. auto.
    - intros (loc & e & Hloc & He & Hk) Hc.
      assert (Hin : In (l_name loc) (flat_map
                (fun loc => map (fun _ => l_name loc)
                   (List.filter (fun e => String.eqb (norm repr (Some (CStr e))) k)
                      (field loc))) locations)).
      { apply in_flat_map. exists loc. split; [exact Hloc|].
        apply in_map_iff. exists e. split; [reflexivity|].
        apply filter_In. split; [exact He | apply String.eqb_eq; exact Hk]. }
      rewrite Hc in Hin. contradiction. }
  split; [|split].
  - apply (H boss_to_locations l_bosses); reflexivity.
  - apply (H npc_to_locations l_npcs); reflexivity.
  - apply (H creature_to_locations l_creatures); reflexivity.
Qed.

(** ** The two status detectors *)

Lemma first_keyword_index (passive : string) :
  first_keyword index_status_keywords passive
  = let p := PyStr.lower passive in
    if PyStr.contains "blood loss" p then Some "Hemorrhage"
    else if PyStr.contains "bleed" p then Some "Hemorrhage"
    else if PyStr.contains "frost" p then Some "Frostbite"
    else if PyStr.contains "frostbite" p then Some "Frostbite"
    else if PyStr.contains "poison" p then Some "Poison"
    else if PyStr.contains "scarlet rot" p then Some "Scarlet Rot"
    else if PyStr.contains "rot" p then Some "Scarlet Rot"
    else if PyStr.contains "madness" p then Some "Madness"
    else if PyStr.contains "sleep" p then Some "Sleep"
    else if PyStr.contains "death" p then Some "Death Blight"
    else None.
Proof. reflexivity. Qed.

Lemma first_status_keywords (p : string) :
  first_status status_keywords p
  = if PyStr.contains "blood loss" p || PyStr.contains "hemorrhage" p
       || PyStr.contains "bleed" p
    then Some "Hemorrhage"
    else if PyStr.contains "frostbite" p || PyStr.contains "frost" p
    then Some "Frostbite"
    else if PyStr.contains "poison" p then Some "Poison"
    else if PyStr.contains "scarlet rot" p || PyStr.contains "rot" p
    then Some "Scarlet Rot"
    else if PyStr.contains "madness" p then Some "Madness"
    else if PyStr.contains "sleep" p then Some "Sleep"
    else if PyStr.contains "death" p || PyStr.contains "blight" p
    then Some "Death Blight"
    else None.
Proof.
  cbn [first_status status_keywords existsb].
  repeat rewrite orb_false_r. repeat rewrite orb_assoc. reflexivity.
Qed.

Lemma index_status_lower (passive : string) :
  str_in (PyStr.lower passive) ["none"; "no passive effects"; EmptyString] = false ->
  index_status passive = first_keyword index_status_keywords passive.
Proof.
  intros E. unfold index_status. destruct passive as [|c s]; [discriminate E|].
  destruct (String.eqb_spec (String c s) "None") as [H|_];
    [rewrite H in E; discriminate E|].
  destruct (String.eqb_spec (String c s) "No passive effects") as [H|_];
    [rewrite H in E; discriminate E|].
  reflexivity.
Qed.

Lemma index_status_excluded (passive : string) :
  str_in (PyStr.lower passive) ["none"; "no passive effects"; EmptyString] = true ->
  index_status passive = None.
Proof.
  intros E. unfold index_status. destruct passive as [|c s]; [reflexivity|].
  destruct (_ || _); [reflexivity|]. rewrite first_keyword_index.
  unfold str_in in E. cbn [existsb] in E.
  destruct (String.eqb_spec (PyStr.lower (String c s)) "none") as [->|_];
    [reflexivity|].
  destruct (String.eqb_spec (PyStr.lower (String c s)) "no passive effects") as [->|_];
    [reflexivity|].
  destruct (String.eqb_spec (PyStr.lower (String c s)) EmptyString) as [->|_];
    [reflexivity | discriminate E].
Qed.

(** X13.  The detector of the weapon index and the detector of the
    recommendation engine read the same status from a passive effect whose
    lower-cased text contains neither "hemorrhage" nor "blight"; whatever
    the text, a status found by the index is found by the engine too, as
    the same status or as Hemorrhage. *)
Theorem status_detectors_agree (w : weapon) :
  (PyStr.contains "hemorrhage" (PyStr.lower (w_passive_effect w)) = false ->
   PyStr.contains "blight" (PyStr.lower (w_passive_effect w)) = false ->
   index_status (w_passive_effect w) = get_weapon_status w) /\
  (forall st, index_status (w_passive_effect w) = Some st ->
              get_weapon_status w = Some st \/
              get_weapon_status w = Some "Hemorrhage").
Proof.
  unfold get_weapon_status. cbv zeta.
  destruct (str_in (PyStr.lower (w_passive_effect w))
              ["none"; "no passive effects"; EmptyString]) eqn:E.
  - rewrite (index_status_excluded _ E). split; [reflexivity | discriminate].
  - rewrite (index_status_lower _ E), first_keyword_index, first_status_keywords.
    cbv zeta. generalize (PyStr.lower (w_passive_effect w)). intros p.
    split.
    + intros Hh Hb. rewrite Hh, Hb.
      repeat match goal with
             | |- context [PyStr.contains ?k p] => destruct (PyStr.contains k p)
             end; reflexivity.
    + intros st.
      repeat match goal with
             | |- context [PyStr.contains ?k p] => destruct (PyStr.contains k p)
             end; cbn [orb]; intros [= <-]; auto.
Qed.

(** Where the two detectors differ: the word "hemorrhage" is a keyword of
    the engine only. *)
Example status_detectors_differ :
  index_status (w_passive_effect hemorrhage_blade) = None /\
  get_weapon_status hemorrhage_blade = Some "Hemorrhage".
Proof. split; vm_compute; reflexivity. Qed.

(** ** The physical bonus outside ties *)



(** ** Ties keep the order of the source *)

Lemma filter_omap_scored (f : weapon -> Z * list string) (n : Z) (l : list weapon) :
  map sw (List.filter (fun s => score s =? n)
            (omap (fun w => if 0 <? fst (f w) then Some (mk_scored (f w) w) else None) l))
  = List.filter (fun w => (0 <? fst (f w)) && (fst (f w) =? n)) l.
Proof.
  induction l as [|w l IH]; [reflexivity|].
  change (omap ?g (w :: l))
    with (match g w with Some y => y :: omap g l | None => omap g l end).
  cbn [List.filter]. destruct (0 <? fst (f w)); cbn [andb].
  - cbn [List.filter score mk_scored]. destruct (fst (f w) =? n).
    + cbn [map sw mk_scored]. rewrite IH. reflexivity.
    + exact IH.
  - exact IH.
Qed.

(** X15.  Both sorts of the recommendation engine are stable.  The ranked
    statuses of one first-tier resistance are listed in the order of the
    vulnerability list, and the scored weapons of one score in the order of
    the deduplicated candidates. *)
Theorem ties_keep_source_order (weakest : string) (vulns : list string)
    (idx : weapon_index) (details : list (string * string))
    (negation : list (string * Q)) (r : xnum) (n : Z) :
  let score_of w :=
    fst (score_weapon weakest (phys_bonus weakest negation)
           (assign_weights 0 (rank_status_vulnerabilities vulns details) ∅)
           vulns details w) in
  map fst (List.filter (fun sr => xnum_tied (snd sr) r)
             (rank_status_vulnerabilities vulns details))
  = List.filter (fun s => xnum_tied (parse_first_resistance (text_get s details)) r)
      vulns /\
  map sw (List.filter (fun s => score s =? n)
            (scored_candidates weakest vulns idx details negation))
  = List.filter (fun w => (0 <? score_of w) && (score_of w =? n)) (candidates idx).
Proof.
  cbv zeta. split.
  - rewrite ranking_stable. induction vulns as [|s vs IH]; [reflexivity|].
    cbn [map List.filter snd].
    destruct (xnum_tied (parse_first_resistance (text_get s details)) r).
    + cbn [map fst]. rewrite IH. reflexivity.
    + exact IH.
  - unfold scored_candidates. cbv zeta.
    change (fun a b : scored_weapon => score b <? score a) with desc.
    rewrite scored_sort_stable.
    apply (filter_omap_scored
             (fun w => score_weapon weakest (phys_bonus weakest negation)
                         (assign_weights 0 (rank_status_vulnerabilities vulns details) ∅)
                         vulns details w)).
Qed.

(** ** Only the first tier of a resistance is read *)

Lemma contains_slash_cons (c : ascii) (s : string) :
  PyStr.contains "/" (String c s) = Ascii.eqb c "/" || PyStr.contains "/" s.
Proof.
  cbn [PyStr.contains String.prefix].
  destruct (ascii_dec "/" c) as [<-|Hne].
  - destruct s; reflexivity.
  - destruct (Ascii.eqb_spec c "/") as [->|_]; [contradiction | reflexivity].
Qed.

Lemma split_at_first_slash (a b : string) :
  PyStr.contains "/" a = false ->
  PyStr.split "/" (a ++ String "/" b) = a :: PyStr.split "/" b.
Proof.
  induction a as [|c a IH]; intros H.
  - reflexivity.
  - rewrite contains_slash_cons in H. apply orb_false_iff in H. destruct H as [Hc Ha].
    change (String c a ++ String "/" b)%string with (String c (a ++ String "/" b))%string.
    cbn [PyStr.split]. rewrite Hc, (IH Ha). reflexivity.
Qed.

Lemma contains_slash_app (a b : string) :
  PyStr.contains "/" (a ++ String "/" b) = true.
Proof.
  induction a as [|c a IH].
  - change (EmptyString ++ String "/" b)%string with (String "/" b).
    rewrite contains_slash_cons. reflexivity.
  - change (String c a ++ String "/" b)%string with (String c (a ++ String "/" b))%string.
    rewrite contains_slash_cons, IH. apply orb_true_r.
Qed.

Lemma contains_slash_lstrip (s : string) :
  PyStr.contains "/" s = true -> PyStr.contains "/" (PyStr.lstrip s) = true.
Proof.
  induction s as [|c s IH]; [discriminate|].
  intros H. cbn [PyStr.lstrip]. destruct (PyStr.is_space c) eqn:Es; [|exact H].
  apply IH. rewrite contains_slash_cons in H.
  destruct (Ascii.eqb_spec c "/") as [->|_]; [discriminate Es | exact H].
Qed.

Lemma contains_slash_rstrip (s : string) :
  PyStr.contains "/" s = true -> PyStr.contains "/" (PyStr.rstrip s) = true.
Proof.
  induction s as [|c s IH]; [discriminate|].
  intros H. rewrite contains_slash_cons in H. cbn [PyStr.rstrip].
  destruct (Ascii.eqb_spec c "/") as [->|Hne].
  - destruct (PyStr.rstrip s); reflexivity.
  - cbn [orb] in H. specialize (IH H).
    destruct (PyStr.rstrip s) as [|c' r]; [discriminate IH|].
    rewrite contains_slash_cons, IH. apply orb_true_r.
Qed.

Lemma lower_char_slash (c : ascii) :
  Ascii.eqb (PyStr.lower_char c) "/" = Ascii.eqb c "/".
Proof.
  destruct c as [[] [] [] [] [] [] [] []]; reflexivity.
Qed.

Lemma contains_slash_lower (s : string) :
  PyStr.contains "/" (PyStr.lower s) = PyStr.contains "/" s.
Proof.
  induction s as [|c s IH]; [reflexivity|].
  change (PyStr.lower (String c s)) with (String (PyStr.lower_char c) (PyStr.lower s)).
  rewrite !contains_slash_cons, lower_char_slash, IH. reflexivity.
Qed.

(** X16.  Of a resistance text with tiers only the text before the first
    "/" is read: its value is the number that text holds once it is
    stripped and its commas are removed, and an infinite resistance when
    that is not a number.  What the later tiers hold never matters, and a
    text with a "/" is never taken for the immune sentinel. *)
Theorem first_tier_only (a b : string) :
  PyStr.contains "/" a = false ->
  parse_first_resistance (a ++ String "/" b)
  = match PyNum.py_float (PyStr.remove_char "," (PyStr.strip a)) with
    | Some q => Fin q
    | None => Inf
    end.
Proof.
  intros Ha. unfold parse_first_resistance.
  destruct (String.eqb_spec (PyStr.lower (PyStr.strip (a ++ String "/" b))) IMMUNE)
    as [E|_].
  - exfalso.
    assert (H : PyStr.contains "/" (PyStr.lower (PyStr.strip (a ++ String "/" b))) = true).
    { rewrite contains_slash_lower. unfold PyStr.strip.
      apply contains_slash_rstrip, contains_slash_lstrip, contains_slash_app. }
    rewrite E in H. discriminate H.
  - rewrite (split_at_first_slash a b Ha). reflexivity.
Qed.

Lemma first_tier_only_witness :
  parse_first_resistance "290 / 332 / 430 / 720" = Fin (290 # 1).
Proof.
  apply (first_tier_only "290 " " 332 / 430 / 720" eq_refl).
Defined.

(** ** The index and the engine read damage types alike *)

(** X20.  The damage-type tokens under which the index files a weapon are
    the damage types the recommendation engine tests, although the index
    strips every token twice; so the bucket of a physical type holds
    exactly the weapons of the list for which the engine's test of that
    type succeeds. *)
Theorem damage_types_read_alike (ws : list weapon) (w : weapon) (k : string) :
  index_dmg_tokens (w_damage_type w) = weapon_dmg_types w /\
  (In w (bucket k (by_damage_type (build_weapon_index ws))) <->
   In w ws /\ str_in k (weapon_dmg_types w) = true /\ In k physical_types).
Proof.
  assert (H : index_dmg_tokens (w_damage_type w) = weapon_dmg_types w).
  { unfold index_dmg_tokens, weapon_dmg_types. rewrite map_map.
    apply map_ext. intros d. rewrite strip_idem. reflexivity. }
  split; [exact H|].
  rewrite damage_bucket_iff, H.
  assert (Hs : In k (weapon_dmg_types w) <-> str_in k (weapon_dmg_types w) = true)
    by (symmetry; apply str_in_In).
  tauto.
Qed.

(** ** The further properties at concrete inputs *)

Lemma lookup_round_trip_witness :
  fuzzy_find sample_ratio sample_repr
    (build_lookup sample_repr "Name" (scaling_of_row sample_repr)
       (Some [club_stats_row])) "CLUB"
  = Some (scaling_of_row sample_repr club_stats_row).
Proof.
  apply (proj1 (proj2 (lookup_round_trip sample_ratio sample_repr "Name"
                         (scaling_of_row sample_repr) [] [] club_stats_row "CLUB"
                         eq_refl (fun r' (H : In r' []) => match H with end)))).
Defined.

Lemma fuzzy_best_match_witness :
  exists m,
    godrick_lookup !! m = Some 1 /\
    (FUZZY_CUTOFF <= prefix_ratio m "godrik")%Q /\
    forall x, is_Some (godrick_lookup !! x) ->
              (prefix_ratio x "godrik" <= prefix_ratio m "godrik")%Q.
Proof.
  apply (fuzzy_best_match prefix_ratio sample_repr godrick_lookup
           (Some (CStr "Godrik")) FUZZY_CUTOFF 1).
  - reflexivity.
  - vm_compute. reflexivity.
Defined.

Lemma status_weight_tiers_witness :
  assign_weights 0
    (rank_status_vulnerabilities ["Poison"; "Hemorrhage"]
       [("Poison", "100/200"); ("Hemorrhage", "40/80")]) ∅ !! "Poison"
  = Some 7.
Proof.
  apply (proj1 (status_weight_tiers ["Poison"; "Hemorrhage"]
                  [("Poison", "100/200"); ("Hemorrhage", "40/80")]
                  1 "Poison" (Fin (100 # 1))
                  ltac:(repeat constructor; simpl; intuition discriminate)
                  eq_refl)).
Defined.

Lemma recommendations_qualify_witness :
  exists s,
    mk_entry {| sw := rot_greatsword; score := 13; reason := rot_reason |} = mk_entry s /\
    qualifies
      (scored_candidates (weakest_physical rot_stats) (status_vulns sample_repr rot_stats)
         (build_weapon_index [rot_greatsword]) (status_details sample_repr rot_stats)
         (valid_phys rot_stats))
      "dexterity" s.
Proof.
  apply (recommendations_qualify (weakest_physical rot_stats)
           (status_vulns sample_repr rot_stats) (build_weapon_index [rot_greatsword])
           (status_details sample_repr rot_stats) (valid_phys rot_stats)
           "dexterity"
           [mk_entry {| sw := rot_greatsword; score := 13; reason := rot_reason |}]).
  - vm_compute. right. left. reflexivity.
  - left. reflexivity.
Defined.
